(** * catsim: the CAT simulation loop of [catsim/cat/simulate.py]

    A shallow embedding of [simCAT], [dodd], [rmse] and [overlap_rate].

    Numbers.  The program computes on IEEE doubles (Python floats and a
    numpy float matrix).  They are modelled here as real numbers [R]:
    rounding, overflow and NaN are outside the model.  Item indices, loop
    counters and sizes are [nat].

    Exceptions.  A Python exception is a value [Raise e] of the type
    [result]; nothing in the program catches one.

    Randomness.  The global numpy generator is modelled as two tapes that
    the calls consume in order: [reals] for [np.random.normal],
    [random.uniform(-5, 5)] and [random.uniform()], and [ints] for
    [random.randint].  A run that needs more draws than the tapes hold stops
    with [TapeEnd], which is the model's only result that is not a Python
    behaviour.

    External functions.  [catsim.cat.irt.inf], [catsim.cat.irt.tpm] and the
    search done by [scipy.optimize.minimize] are parameters of the model. *)

From Stdlib Require Import Reals Lra Lia List Bool Arith PeanoNat.
From Stdlib Require Import Permutation.
Import ListNotations.
Open Scope R_scope.

(** ** Results and exceptions *)

Inductive exn : Type :=
| NameError
| TypeError
| IndexError
| ValueError
| ZeroDivisionError
| TapeEnd.

Inductive result (A : Type) : Type :=
| Ok (x : A)
| Raise (e : exn).

Arguments Ok {A} x.
Arguments Raise {A} e.

Definition is_ok {A} (r : result A) : bool :=
  match r with Ok _ => true | Raise _ => false end.

(** ** Comparisons of floats, as booleans *)

Definition Rgtb (x y : R) : bool := if Rgt_dec x y then true else false.
Definition Rgeb (x y : R) : bool := if Rge_dec x y then true else false.
Definition Reqb (x y : R) : bool := if Req_dec_T x y then true else false.

(** ** The item matrix

    [items] is a numpy matrix with one row per item; [simCAT] appends a
    fourth column.  A row is a record: columns 0, 1 and 2 are the item's
    parameters, column 3 is its exposure counter. *)

Record Item : Type := mkItem {
  par_a : R;       (* column 0, discrimination *)
  par_b : R;       (* column 1, difficulty *)
  par_c : R;       (* column 2, guessing *)
  exposure : R     (* column 3, added by simCAT *)
}.

(** ** Sums *)

(** [sum] of a float sequence. *)
Definition np_sum (l : list R) : R := fold_right Rplus 0 l.

(** The sum [f 0 + ... + f (n-1)] of the mathematical definitions. *)
Fixpoint big_sum (f : nat -> R) (n : nat) : R :=
  match n with
  | O => 0
  | S k => big_sum f k + f k
  end.

(** ** [rmse] (lines 155-162) *)

(** [sklearn.metrics.mean_squared_error] on two 1-D sequences: it checks
    that both have the same number of samples and at least one, then
    averages the squared differences. *)
Definition mean_squared_error (y_true y_pred : list R) : result R :=
  if negb (length y_true =? length y_pred)%nat then Raise ValueError
  else match y_true with
       | [] => Raise ValueError
       | _ :: _ =>
           Ok (np_sum (map (fun p => (fst p - snd p) * (fst p - snd p))
                           (combine y_true y_pred))
               / INR (length y_true))
       end.

Definition rmse (actual predicted : list R) : result R :=
  match mean_squared_error actual predicted with
  | Ok m => Ok (sqrt m)
  | Raise e => Raise e
  end.

(** The docstring's formula: the root of the mean of the squared
    differences of the paired entries. *)
Definition rmse_formula (actual predicted : list R) : R :=
  let N := length actual in
  sqrt (big_sum (fun i => (nth i predicted 0 - nth i actual 0) ^ 2) N / INR N).

(** ** [overlap_rate] (lines 165-176) *)

(** [np.var]: the mean of the squared deviations from the mean. *)
Definition np_mean (x : list R) : R := np_sum x / INR (length x).

Definition np_var (x : list R) : R :=
  let arrmean := np_mean x in
  np_sum (map (fun v => (v - arrmean) * (v - arrmean)) x) / INR (length x).

(** [bankSize] and [testSize] are Python ints, and [/] on them raises when
    the divisor is zero. *)
Definition overlap_rate (items : list Item) (testSize : nat) : result R :=
  let bankSize := length items in
  let varR := np_var (map exposure items) in
  if (testSize =? 0)%nat then Raise ZeroDivisionError
  else if (bankSize =? 0)%nat then Raise ZeroDivisionError
  else Ok ((INR bankSize / INR testSize) * varR + (INR testSize / INR bankSize)).

(** The population variance of the counts [x 0 .. x (N-1)]. *)
Definition population_variance (x : nat -> R) (N : nat) : R :=
  let mu := big_sum x N / INR N in
  big_sum (fun i => (x i - mu) ^ 2) N / INR N.

(** ** [dodd] (lines 126-152) *)

(** Python's [max] and [min] on a sequence: the first element, replaced by
    each later element that compares strictly greater (smaller). *)
Definition py_max (l : list R) : result R :=
  match l with
  | [] => Raise ValueError
  | x :: rest => Ok (fold_left (fun m y => if Rgtb y m then y else m) rest x)
  end.

Definition py_min (l : list R) : result R :=
  match l with
  | [] => Raise ValueError
  | x :: rest => Ok (fold_left (fun m y => if Rgtb m y then y else m) rest x)
  end.

Definition dodd (theta : R) (items : list Item) (acertou : bool) : result R :=
  let b := map par_b items in
  match py_max b with
  | Raise e => Raise e
  | Ok b_max =>
      match py_min b with
      | Raise e => Raise e
      | Ok b_min =>
          Ok (if acertou then theta + ((b_max - theta) / 2)
              else theta - ((theta - b_min) / 2))
      end
  end.

(** ** Sequencing of computations that may raise *)

Definition bind {A B} (r : result A) (k : A -> result B) : result B :=
  match r with
  | Ok x => k x
  | Raise e => Raise e
  end.

Notation "x <- e ;; k" := (bind e (fun x => k))
  (at level 61, e at next level, right associativity).
Notation "' p <- e ;; k" := (bind e (fun x => match x with p => k end))
  (at level 61, p pattern, e at next level, right associativity).

(** ** The state of a run *)

(** [items] is the matrix with its exposure column; [reals] and [ints]
    are the tapes of the random generator; [heap] holds the list objects
    created by [id_itens = []], in order of creation: a record refers to
    such a list by its position in [heap], so that two records built from
    the same [id_itens] share one list. *)
Record World : Type := mkWorld {
  items : list Item;
  reals : list R;
  ints : list nat;
  heap : list (list nat)
}.

(** The local variables of one examinee's test. *)
Record Test : Type := mkTest {
  est_theta : R;
  administered_items : list nat;
  response_vector : list bool
}.

(** An entry of [localResults]; ['Id. Itens'] is a reference to a list. *)
Record LocalResult : Type := mkLocal {
  Theta : R;
  Est_Theta : R;
  Id_Itens : nat;
  l_r_max : R
}.

(** An entry of [globalResults]. *)
Record GlobalResult : Type := mkGlobal {
  Qtd_Itens : nat;
  RMSE : R;
  Overlap : R;
  g_r_max : R
}.

(** The argument [clusters]: one cluster number per item, in a Python
    list or in a numpy array.  Under an integer index the two behave
    alike; under the index [None] a list raises and an array gives the
    whole array with one more axis. *)
Record ClusterMap : Type := mkClusters {
  is_ndarray : bool;
  labels :> list nat
}.

(** [items[k]]; every index the program uses on [items] is in range. *)
Definition row (items : list Item) (k : nat) : Item :=
  nth k items (mkItem 0 0 0 0).

(** [items[k][3] += 1]. *)
Fixpoint incr_exposure (items : list Item) (k : nat) : list Item :=
  match items, k with
  | [], _ => []
  | i :: rest, O =>
      mkItem (par_a i) (par_b i) (par_c i) (exposure i + 1) :: rest
  | i :: rest, S k' => i :: incr_exposure rest k'
  end.

(** [l.append(x)] on the list object at position [ref] of the heap. *)
Fixpoint heap_append (h : list (list nat)) (ref : nat) (x : nat)
  : list (list nat) :=
  match h, ref with
  | [], _ => []
  | l :: rest, O => (l ++ [x]) :: rest
  | l :: rest, S r => l :: heap_append rest r x
  end.

(** What a reference holds. *)
Definition deref (h : list (list nat)) (ref : nat) : list nat :=
  nth ref h [].

(** [x in l] on a list of indices. *)
Definition mem (x : nat) (l : list nat) : bool := existsb (Nat.eqb x) l.

(** [all(response_vector[0] == response for response in response_vector)] *)
Definition all_same (response_vector : list bool) : bool :=
  match response_vector with
  | [] => true
  | r0 :: _ => forallb (Bool.eqb r0) response_vector
  end.

(** [np.linspace(start, stop, num)] *)
Definition linspace (start stop : R) (num : nat) : list R :=
  map (fun k => start + INR k * ((stop - start) / INR (num - 1))) (seq 0 num).

(** Takes [n] draws from a tape. *)
Fixpoint draw (n : nat) (tape : list R) : result (list R * list R) :=
  match n with
  | O => Ok ([], tape)
  | S n' =>
      match tape with
      | [] => Raise TapeEnd
      | x :: tape' =>
          ' (xs, tape'') <- draw n' tape' ;; Ok (x :: xs, tape'')
      end
  end.

Section CAT.

(** [catsim.cat.irt.inf] and [catsim.cat.irt.tpm], functions of
    [(theta, a, b, c)], and [minimize(negativelogLik, [est_theta],
    args=[response_vector, rows], method=optimizer).x[0]], a function of
    the method, the seed, the responses and the rows of the administered
    items.  The method name is a number here. *)
Variable inf : R -> R -> R -> R -> R.
Variable tpm : R -> R -> R -> R -> R.
Variable minimize : nat -> R -> list bool -> list Item -> R.

(** *** The item selector (lines 46-74) *)

(** [max_inf = 0]; no statement assigns to it afterwards. *)
Definition max_inf : R := 0.

(** Lines 51-55: the scan of the bank, from the row numbered [counter],
    with the current value of [selected_item]. *)
Fixpoint scan (est_theta : R) (administered_items : list nat)
    (rows : list Item) (counter : nat) (selected_item : option nat)
  : option nat :=
  match rows with
  | [] => selected_item
  | i :: rest =>
      scan est_theta administered_items rest (S counter)
        (if negb (mem counter administered_items)
            && Rgtb (inf est_theta (par_a i) (par_b i) (par_c i)) max_inf
         then Some counter
         else selected_item)
  end.

(** Lines 49-55: [selected_item] after the scan. *)
Definition informative_pick (est_theta : R) (administered_items : list nat)
    (items : list Item) : option nat :=
  scan est_theta administered_items items 0 None.

(** The condition of line 52-54 on the row [i] numbered [counter]. *)
Definition eligible (est_theta : R) (administered_items : list nat)
    (counter : nat) (i : Item) : bool :=
  negb (mem counter administered_items)
  && Rgtb (inf est_theta (par_a i) (par_b i) (par_c i)) max_inf.

(** Lines 62-63: the condition of the [if]; [counter] is the loop variable
    left by the scan. *)
Definition exposure_check (items : list Item) (counter bank_size : nat)
    (r_max : R) : bool :=
  Reqb (exposure (row items counter)) 0
  || (negb (Reqb (exposure (row items counter)) 0)
      && Rgeb (INR bank_size / exposure (row items counter)) r_max).

(** Lines 65-74: the [while] loop.  Each turn takes one draw of
    [randint(0, bank_size)] from the tape: the entry [n] of the tape
    stands for the item [n mod bank_size]. *)
Fixpoint substitute (selected_item_cluster : nat) (clusters : list nat)
    (administered_items : list nat) (bank_size : nat) (ints : list nat)
  : result (nat * list nat) :=
  match ints with
  | [] => Raise TapeEnd
  | n :: rest =>
      if (bank_size =? 0)%nat then Raise ValueError
      else
        let random_item := (n mod bank_size)%nat in
        match nth_error clusters random_item with
        | None => Raise IndexError
        | Some cl =>
            if (selected_item_cluster =? cl)%nat
               && negb (mem random_item administered_items)
            then Ok (random_item, rest)
            else substitute selected_item_cluster clusters
                   administered_items bank_size rest
        end
  end.

(** Lines 64-74 when the scan left [selected_item] at [None] and
    [clusters] is an array.  [clusters[None]] is then the array itself
    with one more axis, and each turn of the loop compares it as a whole
    with [clusters[random_item]]: the [and] of line 69 takes the truth
    value of that comparison, which is the truth value of its only entry
    when the array has one entry and raises when it has several. *)
Fixpoint substitute_none (clusters : list nat)
    (administered_items : list nat) (bank_size : nat) (ints : list nat)
  : result (nat * list nat) :=
  match ints with
  | [] => Raise TapeEnd
  | n :: rest =>
      if (bank_size =? 0)%nat then Raise ValueError
      else
        let random_item := (n mod bank_size)%nat in
        match nth_error clusters random_item with
        | None => Raise IndexError
        | Some cl =>
            match clusters with
            | [c0] =>
                if (c0 =? cl)%nat
                   && negb (mem random_item administered_items)
                then Ok (random_item, rest)
                else substitute_none clusters administered_items
                       bank_size rest
            | _ => Raise ValueError
            end
        end
  end.

(** Lines 49-74: the value of [selected_item] at line 76.  With an empty
    bank the scan never binds [counter].  When the scan left
    [selected_item] at [None], line 64 indexes [clusters] with [None]: a
    list raises, an array goes on to the loop. *)
Definition select_item (items : list Item) (clusters : ClusterMap)
    (est_theta : R) (administered_items : list nat) (r_max : R)
    (ints : list nat) : result (option nat * list nat) :=
  let selected_item := informative_pick est_theta administered_items items in
  match length items with
  | O => Raise NameError
  | S counter =>
      if exposure_check items counter (length items) r_max then
        match selected_item with
        | None =>
            if is_ndarray clusters then
              ' (random_item, ints') <-
                substitute_none clusters administered_items
                  (length items) ints ;;
              Ok (Some random_item, ints')
            else Raise TypeError
        | Some s =>
            match nth_error clusters s with
            | None => Raise IndexError
            | Some selected_item_cluster =>
                ' (random_item, ints') <-
                  substitute selected_item_cluster clusters
                    administered_items (length items) ints ;;
                Ok (Some random_item, ints')
            end
        end
      else Ok (selected_item, ints)
  end.

(** *** One administration (lines 46-104)

    The body of the loop over [q].  When [selected_item] is [None] the
    row access [items[selected_item][1]] of line 83 raises. *)
Definition administer (clusters : ClusterMap) (optimizer : nat)
    (r_max true_theta : R) (id_itens : nat) (st : World * Test)
  : result (World * Test) :=
  let (w, t) := st in
  ' (sel, ints') <-
    select_item (items w) clusters (est_theta t) (administered_items t)
      r_max (ints w) ;;
  match sel with
  | None => Raise IndexError
  | Some selected_item =>
      let heap' := heap_append (heap w) id_itens selected_item in
      let i := row (items w) selected_item in
      match reals w with
      | [] => Raise TapeEnd
      | u :: reals' =>
          let acertou :=
            Rgeb (tpm true_theta (par_a i) (par_b i) (par_c i)) u in
          let response_vector' := response_vector t ++ [acertou] in
          let administered_items' :=
            administered_items t ++ [selected_item] in
          let items' := incr_exposure (items w) selected_item in
          est_theta' <-
            (if all_same response_vector'
             then dodd (est_theta t) items' acertou
             else Ok (minimize optimizer (est_theta t) response_vector'
                        (map (row items') administered_items'))) ;;
          Ok (mkWorld items' reals' ints' heap',
              mkTest est_theta' administered_items' response_vector')
      end
  end.

(** Line 46: [n_itens] administrations. *)
Fixpoint run_test (n_itens : nat) (clusters : ClusterMap) (optimizer : nat)
    (r_max true_theta : R) (id_itens : nat) (st : World * Test)
  : result (World * Test) :=
  match n_itens with
  | O => Ok st
  | S n =>
      st' <- administer clusters optimizer r_max true_theta id_itens st ;;
      run_test n clusters optimizer r_max true_theta id_itens st'
  end.

(** Lines 36-104: one examinee's test, from the draw of the first
    estimate to the last administration. *)
Definition run_examinee (n_itens : nat) (clusters : ClusterMap)
    (optimizer : nat) (r_max true_theta : R) (id_itens : nat) (w : World)
  : result (World * Test) :=
  match reals w with
  | [] => Raise TapeEnd
  | u :: reals' =>
      run_test n_itens clusters optimizer r_max true_theta id_itens
        (mkWorld (items w) reals' (ints w) (heap w), mkTest u [] [])
  end.

(** Lines 36-112: the loop over [true_thetas]; [acc] is the pair of
    [localResults] and [estimatedThetasForThisR]. *)
Fixpoint run_examinees (true_thetas : list R) (n_itens : nat)
    (clusters : ClusterMap) (optimizer : nat) (r_max : R) (id_itens : nat)
    (w : World) (acc : list LocalResult * list R)
  : result (World * (list LocalResult * list R)) :=
  match true_thetas with
  | [] => Ok (w, acc)
  | true_theta :: rest =>
      ' (w', t) <-
        run_examinee n_itens clusters optimizer r_max true_theta id_itens w ;;
      run_examinees rest n_itens clusters optimizer r_max id_itens w'
        (fst acc ++ [mkLocal true_theta (est_theta t) id_itens r_max],
         snd acc ++ [est_theta t])
  end.

(** Lines 31-120: the body of the loop over [r_maxes].  With [verbose]
    line 33 adds a string and the int [r_max_interval], which raises.
    [id_itens = []] creates a new list object. *)
Definition run_pass (true_thetas : list R) (n_itens : nat)
    (clusters : ClusterMap) (optimizer : nat) (verbose : bool) (r_max : R)
    (st : World * (list GlobalResult * list LocalResult))
  : result (World * (list GlobalResult * list LocalResult)) :=
  let (w, res) := st in
  if verbose then Raise TypeError
  else
    let id_itens := length (heap w) in
    ' (w', (localResults, estimatedThetasForThisR)) <-
      run_examinees true_thetas n_itens clusters optimizer r_max id_itens
        (mkWorld (items w) (reals w) (ints w) (heap w ++ [[]]))
        (snd res, []) ;;
    e <- rmse true_thetas estimatedThetasForThisR ;;
    T <- overlap_rate (items w') n_itens ;;
    Ok (w', (fst res ++ [mkGlobal n_itens e T r_max], localResults)).

(** Line 31: the loop over the exposure caps. *)
Fixpoint run_passes (r_maxes : list R) (true_thetas : list R)
    (n_itens : nat) (clusters : ClusterMap) (optimizer : nat)
    (verbose : bool) (st : World * (list GlobalResult * list LocalResult))
  : result (World * (list GlobalResult * list LocalResult)) :=
  match r_maxes with
  | [] => Ok st
  | r_max :: rest =>
      st' <- run_pass true_thetas n_itens clusters optimizer verbose r_max st ;;
      run_passes rest true_thetas n_itens clusters optimizer verbose st'
  end.

(** Lines 18-29: the state in which the loop over the caps starts.  The
    bank comes with three columns; the exposure column is added here,
    once. *)
Definition init_world (bank : list (R * R * R)) (examinees : nat)
    (reals : list R) (ints : list nat) : result (list R * World) :=
  ' (true_thetas, reals') <- draw examinees reals ;;
  Ok (true_thetas,
      mkWorld (map (fun p => mkItem (fst (fst p)) (snd (fst p)) (snd p) 0) bank)
        reals' ints []).

(** [simCAT], run on the caps [r_maxes]; besides the two result lists it
    gives the final state, whose heap the records refer to. *)
Definition simCAT_caps (r_maxes : list R) (bank : list (R * R * R))
    (clusters : ClusterMap) (examinees n_itens : nat) (optimizer : nat)
    (verbose : bool) (reals : list R) (ints : list nat)
  : result (World * (list GlobalResult * list LocalResult)) :=
  ' (true_thetas, w) <- init_world bank examinees reals ints ;;
  run_passes r_maxes true_thetas n_itens clusters optimizer verbose
    (w, ([], [])).

Definition simCAT (bank : list (R * R * R)) (clusters : ClusterMap)
    (examinees n_itens r_max_interval : nat) (optimizer : nat)
    (verbose : bool) (reals : list R) (ints : list nat)
  : result (World * (list GlobalResult * list LocalResult)) :=
  simCAT_caps (linspace (1 / 10) 1 r_max_interval) bank clusters examinees
    n_itens optimizer verbose reals ints.

(** The state in which [simCAT] starts the pass of the cap numbered [k]:
    the state that the passes of the caps before it leave behind. *)
Definition state_at_cap (k : nat) (bank : list (R * R * R))
    (clusters : ClusterMap) (examinees n_itens r_max_interval : nat)
    (optimizer : nat) (verbose : bool) (reals : list R) (ints : list nat)
  : result (World * (list GlobalResult * list LocalResult)) :=
  simCAT_caps (firstn k (linspace (1 / 10) 1 r_max_interval)) bank clusters
    examinees n_itens optimizer verbose reals ints.

End CAT.

(** ** A concrete item-response model *)

(** Modelled from the spec: the module [catsim.cat.irt] is not among the
    sources.  The spec names its [tpm] the three-parameter logistic
    probability of a correct response and its [inf] the Fisher information
    of an item, with values in [0, 1] and at least 0; these are the textbook
    formulas for both.  They serve to run the model on concrete banks; the
    general results below hold for any [inf] and [tpm]. *)
Definition tpm_3pl (theta a b c : R) : R :=
  c + (1 - c) / (1 + exp (- a * (theta - b))).

Definition inf_3pl (theta a b c : R) : R :=
  let p := tpm_3pl theta a b c in
  a ^ 2 * ((p - c) ^ 2 / (1 - c) ^ 2) * ((1 - p) / p).

(** A minimizer that stays at its seed. *)
Definition minimize_seed (optimizer : nat) (x0 : R) (responses : list bool)
    (rows : list Item) : R := x0.

(** ** Notions used in the statements *)

(** [m] is the greatest (smallest) entry of [l]. *)
Definition is_max_of (m : R) (l : list R) : Prop :=
  In m l /\ forall x, In x l -> x <= m.

Definition is_min_of (m : R) (l : list R) : Prop :=
  In m l /\ forall x, In x l -> m <= x.

(** Every exposure counter equals the number of times its item occurs in
    the lists of administered items created so far. *)
Definition counts_match (w : World) : Prop :=
  forall i, (i < length (items w))%nat ->
    exposure (row (items w) i)
    = INR (count_occ Nat.eq_dec (concat (heap w)) i).

(** ** Concrete banks *)

(** Ten items, each administered three times. *)
Definition ten_items : list Item := repeat (mkItem 1 0 0 3) 10.

(** Two items with difficulties 3 and -2. *)
Definition two_items : list Item := [mkItem 1 3 0 0; mkItem 1 (-2) 0 0].

(** A bank of two items of difficulty 0 and guessing 0, with
    discriminations 2 and 1, as [simCAT] receives it and as the matrix
    with the exposure counts [e0] and [e1]; both items in cluster 0, the
    cluster numbers in a list. *)
Definition bank2 : list (R * R * R) := [(2, 0, 0); (1, 0, 0)].

Definition items2 (e0 e1 : R) : list Item :=
  [mkItem 2 0 0 e0; mkItem 1 0 0 e1].

Definition one_cluster : ClusterMap := mkClusters false [0%nat; 0%nat].

(** The same cluster numbers in a numpy array. *)
Definition one_cluster_array : ClusterMap :=
  mkClusters true [0%nat; 0%nat].

(** A bank of two items of discrimination 0, none administered. *)
Definition flat_items : list Item := [mkItem 0 0 0 0; mkItem 0 0 0 0].

Arguments inf_3pl : simpl never.
Arguments tpm_3pl : simpl never.

(** * Properties *)

(** ** Float comparisons *)

Lemma Rgtb_true x y : Rgtb x y = true <-> x > y.
Proof. unfold Rgtb; destruct (Rgt_dec x y); split; auto; discriminate. Qed.

Lemma Rgtb_false x y : Rgtb x y = false <-> ~ x > y.
Proof. unfold Rgtb; destruct (Rgt_dec x y); split; auto; try discriminate; tauto. Qed.

Lemma Rgeb_true x y : Rgeb x y = true <-> x >= y.
Proof. unfold Rgeb; destruct (Rge_dec x y); split; auto; discriminate. Qed.

Lemma Rgeb_false x y : Rgeb x y = false <-> ~ x >= y.
Proof. unfold Rgeb; destruct (Rge_dec x y); split; auto; try discriminate; tauto. Qed.

Lemma Reqb_true x y : Reqb x y = true <-> x = y.
Proof. unfold Reqb; destruct (Req_dec_T x y); split; auto; discriminate. Qed.

Lemma Reqb_false x y : Reqb x y = false <-> x <> y.
Proof. unfold Reqb; destruct (Req_dec_T x y); split; auto; try discriminate; tauto. Qed.

(** Decides the float comparisons of a goal whose operands are numerals. *)
Ltac decide_cmp :=
  repeat match goal with
  | |- context [Rgtb ?x ?y] =>
      first [ replace (Rgtb x y) with true by (symmetry; apply Rgtb_true; lra)
            | replace (Rgtb x y) with false by (symmetry; apply Rgtb_false; lra) ]
  | |- context [Rgeb ?x ?y] =>
      first [ replace (Rgeb x y) with true by (symmetry; apply Rgeb_true; lra)
            | replace (Rgeb x y) with false by (symmetry; apply Rgeb_false; lra) ]
  | |- context [Reqb ?x ?y] =>
      first [ replace (Reqb x y) with true by (symmetry; apply Reqb_true; lra)
            | replace (Reqb x y) with false by (symmetry; apply Reqb_false; lra) ]
  end.

(** ** Sequencing *)

Lemma bind_ok {A B} (r : result A) (k : A -> result B) (y : B) :
  bind r k = Ok y -> exists x, r = Ok x /\ k x = Ok y.
Proof. destruct r as [x|e]; simpl; intros H; [eauto | discriminate]. Qed.


(** ** Sums and variance *)

Lemma big_sum_shift (f : nat -> R) (n : nat) :
  big_sum f (S n) = f O + big_sum (fun i => f (S i)) n.
Proof.
  induction n as [|n IH].
  - simpl. ring.
  - change (big_sum f (S (S n))) with (big_sum f (S n) + f (S n)).
    rewrite IH. simpl. ring.
Qed.

Lemma big_sum_ext (f g : nat -> R) (n : nat) :
  (forall i, (i < n)%nat -> f i = g i) -> big_sum f n = big_sum g n.
Proof.
  induction n as [|n IH]; intros H; simpl.
  - reflexivity.
  - rewrite IH by (intros i Hi; apply H; lia).
    rewrite (H n) by lia. reflexivity.
Qed.

Lemma np_sum_map_big_sum {A} (g : A -> R) (d : A) (l : list A) :
  np_sum (map g l) = big_sum (fun i => g (nth i l d)) (length l).
Proof.
  induction l as [|x l IH].
  - reflexivity.
  - change (length (x :: l)) with (S (length l)).
    rewrite big_sum_shift. simpl. rewrite <- IH. reflexivity.
Qed.

Lemma np_sum_combine (g : R * R -> R) (a p : list R) :
  length a = length p ->
  np_sum (map g (combine a p))
  = big_sum (fun i => g (nth i a 0, nth i p 0)) (length a).
Proof.
  revert p. induction a as [|x a IH]; intros [|y p] Hlen; try discriminate.
  - reflexivity.
  - change (length (x :: a)) with (S (length a)).
    rewrite big_sum_shift. simpl. rewrite <- IH by (simpl in Hlen; lia).
    reflexivity.
Qed.

Lemma np_sum_squares_nonneg (g : R -> R) (l : list R) :
  0 <= np_sum (map (fun v => g v * g v) l).
Proof.
  induction l as [|x l IH]; simpl; [lra|].
  pose proof (Rle_0_sqr (g x)) as H. unfold Rsqr in H. lra.
Qed.

Lemma np_sum_squares_zero (g : R -> R) (l : list R) :
  np_sum (map (fun v => g v * g v) l) = 0 <-> forall v, In v l -> g v = 0.
Proof.
  induction l as [|x l IH]; simpl.
  - split; [intros _ v [] | reflexivity].
  - pose proof (Rle_0_sqr (g x)) as Hx. unfold Rsqr in Hx.
    pose proof (np_sum_squares_nonneg g l) as Hl.
    split.
    + intros H v [<- | Hv].
      * assert (Hz : g x * g x = 0) by lra.
        apply Rmult_integral in Hz. tauto.
      * apply IH; [lra | exact Hv].
    + intros H. rewrite (H x) by auto.
      assert (Hr : np_sum (map (fun v => g v * g v) l) = 0)
        by (apply IH; auto).
      rewrite Hr. ring.
Qed.

Lemma np_sum_const (v : R) (l : list R) :
  (forall x, In x l -> x = v) -> np_sum l = INR (length l) * v.
Proof.
  induction l as [|x l IH]; intros H.
  - simpl. ring.
  - change (np_sum (x :: l)) with (x + np_sum l).
    rewrite IH by (intros y Hy; apply H; right; exact Hy).
    rewrite (H x) by (left; reflexivity).
    simpl length. rewrite S_INR. ring.
Qed.

Lemma INR_length_pos {A} (l : list A) : l <> [] -> 0 < INR (length l).
Proof.
  destruct l; [congruence|]. intros _. apply lt_0_INR. simpl. lia.
Qed.

Lemma np_var_nonneg (x : list R) : x <> [] -> 0 <= np_var x.
Proof.
  intros Hx. unfold np_var.
  pose proof (INR_length_pos x Hx) as Hn.
  pose proof (np_sum_squares_nonneg (fun v => v - np_mean x) x) as Hs.
  apply Rmult_le_pos; [exact Hs|].
  left. apply Rinv_0_lt_compat. exact Hn.
Qed.

(** The variance vanishes exactly on the constant columns. *)
Lemma np_var_zero (x : list R) :
  x <> [] -> (np_var x = 0 <-> forall u v, In u x -> In v x -> u = v).
Proof.
  intros Hx. pose proof (INR_length_pos x Hx) as Hn.
  unfold np_var. split.
  - intros H u v Hu Hv.
    assert (Hs : np_sum (map (fun v => (v - np_mean x) * (v - np_mean x)) x) = 0).
    { apply Rmult_integral in H. destruct H as [H|H]; [exact H|].
      exfalso. apply (Rinv_neq_0_compat (INR (length x))); [lra | exact H]. }
    pose proof (proj1 (np_sum_squares_zero (fun v => v - np_mean x) x) Hs) as Hall.
    pose proof (Hall u Hu). pose proof (Hall v Hv). simpl in *. lra.
  - intros Heq.
    destruct x as [|x0 x]; [congruence|].
    assert (Hmean : np_mean (x0 :: x) = x0).
    { unfold np_mean.
      rewrite (np_sum_const x0) by (intros y Hy; apply Heq; simpl; auto).
      field. lra. }
    assert (Hs : np_sum (map (fun v => (v - np_mean (x0 :: x)) * (v - np_mean (x0 :: x)))
                          (x0 :: x)) = 0).
    { apply np_sum_squares_zero. intros v Hv. rewrite Hmean.
      rewrite (Heq v x0 Hv) by (simpl; auto). ring. }
    rewrite Hs. unfold Rdiv. ring.
Qed.

Lemma np_var_population (x : list R) :
  np_var x = population_variance (fun i => nth i x 0) (length x).
Proof.
  unfold np_var, population_variance, np_mean.
  rewrite (np_sum_map_big_sum _ 0 x).
  replace (np_sum x) with (big_sum (fun i => nth i x 0) (length x)).
  2:{ rewrite <- (np_sum_map_big_sum (fun v => v) 0 x). rewrite map_id. reflexivity. }
  f_equal. apply big_sum_ext. intros i _. ring.
Qed.

Lemma population_variance_ext (f g : nat -> R) (N : nat) :
  (forall i, f i = g i) -> population_variance f N = population_variance g N.
Proof.
  intros H. unfold population_variance.
  rewrite (big_sum_ext f g N) by (intros i _; apply H).
  f_equal. apply big_sum_ext. intros i _. rewrite H. reflexivity.
Qed.

(** ** [overlap_rate] *)

Lemma overlap_rate_ok (items : list Item) (testSize : nat) :
  items <> [] -> (0 < testSize)%nat ->
  overlap_rate items testSize
  = Ok (INR (length items) / INR testSize * np_var (map exposure items)
        + INR testSize / INR (length items)).
Proof.
  intros Hi Hq. unfold overlap_rate.
  destruct testSize as [|q]; [lia|].
  destruct items as [|i items]; [congruence|]. reflexivity.
Qed.

Lemma equal_counts_column (items : list Item) :
  (forall i j, In i items -> In j items -> exposure i = exposure j) <->
  (forall u v, In u (map exposure items) -> In v (map exposure items) -> u = v).
Proof.
  split.
  - intros H u v Hu Hv. apply in_map_iff in Hu, Hv.
    destruct Hu as [i [<- Hi]]. destruct Hv as [j [<- Hj]]. auto.
  - intros H i j Hi Hj. apply H; apply in_map; assumption.
Qed.

(** C7.  On a bank of [N >= 1] items and a test length [Q >= 1],
    [overlap_rate] returns [(N/Q) * Var + Q/N], where [Var] is the
    population variance of the exposure column over the whole bank; with
    [N = 10], [Q = 5] and ten equal counts the value is [1/2]. *)
Theorem overlap_rate_formula (items : list Item) (Q : nat) :
  items <> [] -> (0 < Q)%nat ->
  let N := length items in
  overlap_rate items Q
  = Ok (INR N / INR Q
        * population_variance (fun i => exposure (row items i)) N
        + INR Q / INR N)
  /\ (N = 10%nat -> Q = 5%nat ->
      (forall i j, In i items -> In j items -> exposure i = exposure j) ->
      overlap_rate items Q = Ok (1 / 2)).
Proof.
  intros Hi Hq N. rewrite (overlap_rate_ok items Q Hi Hq). split.
  - rewrite np_var_population. rewrite length_map.
    assert (Hrow : forall i, nth i (map exposure items) 0 = exposure (row items i)).
    { intros i. unfold row.
      exact (map_nth exposure items (mkItem 0 0 0 0) i). }
    subst N.
    rewrite (population_variance_ext _ (fun i => exposure (row items i)) _ Hrow).
    reflexivity.
  - intros HN HQ Heq. fold N.
    assert (Hv : np_var (map exposure items) = 0).
    { apply np_var_zero.
      - destruct items; [congruence | discriminate].
      - apply equal_counts_column. exact Heq. }
    rewrite Hv, HN, HQ. f_equal. simpl. field.
Qed.

(** C10.  On a bank of [N >= 1] items and a test length [Q >= 1] the value
    of [overlap_rate] is at least [Q/N], and it is [Q/N] exactly when all
    exposure counts are equal.  The sign of the counts plays no part. *)
Theorem overlap_rate_lower_bound (items : list Item) (Q : nat) :
  items <> [] -> (0 < Q)%nat ->
  exists T,
    overlap_rate items Q = Ok T
    /\ INR Q / INR (length items) <= T
    /\ (T = INR Q / INR (length items) <->
        forall i j, In i items -> In j items -> exposure i = exposure j).
Proof.
  intros Hi Hq. rewrite (overlap_rate_ok items Q Hi Hq).
  eexists. split; [reflexivity|].
  assert (Hx : map exposure items <> []) by (destruct items; [congruence | discriminate]).
  pose proof (np_var_nonneg _ Hx) as Hv.
  pose proof (INR_length_pos items Hi) as HN.
  assert (HQ : 0 < INR Q) by (apply lt_0_INR; exact Hq).
  assert (Hc : 0 < INR (length items) / INR Q)
    by (apply Rdiv_lt_0_compat; assumption).
  split.
  - pose proof (Rmult_le_pos _ _ (Rlt_le _ _ Hc) Hv). lra.
  - rewrite equal_counts_column, <- (np_var_zero _ Hx). split.
    + intros H.
      assert (Hz : INR (length items) / INR Q * np_var (map exposure items) = 0) by lra.
      apply Rmult_integral in Hz. destruct Hz; [lra | assumption].
    + intros H. rewrite H. ring.
Qed.

Lemma overlap_rate_formula_witness :
  overlap_rate ten_items 5 = Ok (1 / 2).
Proof.
  assert (Hne : ten_items <> []) by discriminate.
  assert (Hq : (0 < 5)%nat) by lia.
  destruct (overlap_rate_formula ten_items 5 Hne Hq) as [_ H].
  apply H; [reflexivity | reflexivity |].
  intros i j Hi Hj. unfold ten_items in Hi, Hj.
  apply repeat_spec in Hi, Hj. subst. reflexivity.
Defined.

Lemma overlap_rate_lower_bound_witness :
  exists T, overlap_rate two_items 1 = Ok T /\ INR 1 / INR 2 <= T.
Proof.
  assert (Hne : two_items <> []) by discriminate.
  assert (Hq : (0 < 1)%nat) by lia.
  destruct (overlap_rate_lower_bound two_items 1 Hne Hq) as [T [H1 [H2 _]]].
  exists T. split; [exact H1 | exact H2].
Defined.

(** ** [dodd] *)

Lemma fold_max_spec (rest : list R) (x : R) :
  is_max_of (fold_left (fun m y => if Rgtb y m then y else m) rest x)
            (x :: rest).
Proof.
  revert x. induction rest as [|y rest IH]; intros x.
  - simpl. split; [left; reflexivity|]. intros z [<-|[]]. lra.
  - simpl fold_left.
    destruct (IH (if Rgtb y x then y else x)) as [Hin Hle].
    assert (Hx : x <= (if Rgtb y x then y else x) /\ y <= (if Rgtb y x then y else x)).
    { destruct (Rgtb y x) eqn:E.
      - apply Rgtb_true in E. lra.
      - apply Rgtb_false in E. lra. }
    split.
    + destruct Hin as [Hin|Hin]; [|right; right; exact Hin].
      rewrite <- Hin. destruct (Rgtb y x); [right; left | left]; reflexivity.
    + intros z [<-|[<-|Hz]].
      * apply Rle_trans with (if Rgtb y x then y else x); [tauto|].
        apply Hle. left. reflexivity.
      * apply Rle_trans with (if Rgtb y x then y else x); [tauto|].
        apply Hle. left. reflexivity.
      * apply Hle. right. exact Hz.
Qed.

Lemma fold_min_spec (rest : list R) (x : R) :
  is_min_of (fold_left (fun m y => if Rgtb m y then y else m) rest x)
            (x :: rest).
Proof.
  revert x. induction rest as [|y rest IH]; intros x.
  - simpl. split; [left; reflexivity|]. intros z [<-|[]]. lra.
  - simpl fold_left.
    destruct (IH (if Rgtb x y then y else x)) as [Hin Hle].
    assert (Hx : (if Rgtb x y then y else x) <= x /\ (if Rgtb x y then y else x) <= y).
    { destruct (Rgtb x y) eqn:E.
      - apply Rgtb_true in E. lra.
      - apply Rgtb_false in E. lra. }
    split.
    + destruct Hin as [Hin|Hin]; [|right; right; exact Hin].
      rewrite <- Hin. destruct (Rgtb x y); [right; left | left]; reflexivity.
    + intros z [<-|[<-|Hz]].
      * apply Rle_trans with (if Rgtb x y then y else x); [|tauto].
        apply Hle. left. reflexivity.
      * apply Rle_trans with (if Rgtb x y then y else x); [|tauto].
        apply Hle. left. reflexivity.
      * apply Hle. right. exact Hz.
Qed.

Lemma is_max_of_unique (m m' : R) (l : list R) :
  is_max_of m l -> is_max_of m' l -> m = m'.
Proof.
  intros [Hin Hle] [Hin' Hle']. apply Rle_antisym; auto.
Qed.

Lemma is_min_of_unique (m m' : R) (l : list R) :
  is_min_of m l -> is_min_of m' l -> m = m'.
Proof.
  intros [Hin Hle] [Hin' Hle']. apply Rle_antisym; auto.
Qed.

Lemma py_max_spec (l : list R) (m : R) : is_max_of m l -> py_max l = Ok m.
Proof.
  intros Hm. destruct l as [|x rest]; [destruct Hm as [[] _]|].
  simpl. f_equal. apply is_max_of_unique with (x :: rest); [|exact Hm].
  apply fold_max_spec.
Qed.

Lemma py_min_spec (l : list R) (m : R) : is_min_of m l -> py_min l = Ok m.
Proof.
  intros Hm. destruct l as [|x rest]; [destruct Hm as [[] _]|].
  simpl. f_equal. apply is_min_of_unique with (x :: rest); [|exact Hm].
  apply fold_min_spec.
Qed.

(** C5.  With [b_max] and [b_min] the greatest and the smallest
    difficulty over all rows of the bank, [dodd] returns
    [theta + (b_max - theta)/2] after a correct response and
    [theta - (theta - b_min)/2] after an incorrect one; for [b_max = 3],
    [b_min = -2] and [theta = 0] these are [1.5] and [-1]. *)
Theorem dodd_update (theta : R) (items : list Item) (acertou : bool)
    (b_max b_min : R) :
  is_max_of b_max (map par_b items) ->
  is_min_of b_min (map par_b items) ->
  dodd theta items acertou
  = Ok (if acertou then theta + (b_max - theta) / 2
        else theta - (theta - b_min) / 2)
  /\ (b_max = 3 -> b_min = -2 ->
      dodd 0 items true = Ok (3 / 2) /\ dodd 0 items false = Ok (-1)).
Proof.
  intros Hmax Hmin. unfold dodd.
  rewrite (py_max_spec _ _ Hmax), (py_min_spec _ _ Hmin).
  split; [reflexivity|].
  intros -> ->. split; f_equal; lra.
Qed.

Lemma dodd_update_witness :
  dodd 0 two_items true = Ok (3 / 2) /\ dodd 0 two_items false = Ok (-1).
Proof.
  assert (Hmax : is_max_of 3 (map par_b two_items)).
  { split; simpl; [left; reflexivity|]. intros x [<-|[<-|[]]]; lra. }
  assert (Hmin : is_min_of (-2) (map par_b two_items)).
  { split; simpl; [right; left; reflexivity|]. intros x [<-|[<-|[]]]; lra. }
  destruct (dodd_update 0 two_items true 3 (-2) Hmax Hmin) as [_ H].
  apply H; reflexivity.
Defined.

(** ** [rmse] *)

Lemma rmse_length_mismatch (actual predicted : list R) :
  length actual <> length predicted ->
  rmse actual predicted = Raise ValueError.
Proof.
  intros H. unfold rmse, mean_squared_error.
  apply Nat.eqb_neq in H. rewrite H. reflexivity.
Qed.

Lemma rmse_equal_length (actual predicted : list R) :
  length actual = length predicted -> actual <> [] ->
  rmse actual predicted = Ok (rmse_formula actual predicted).
Proof.
  intros Hlen Hne. unfold rmse, mean_squared_error, rmse_formula.
  pose proof Hlen as Hb. apply Nat.eqb_eq in Hb. rewrite Hb. simpl negb.
  destruct actual as [|x actual]; [congruence|]. cbv iota.
  rewrite (np_sum_combine _ _ _ Hlen).
  do 3 f_equal. apply big_sum_ext. intros i _. simpl. ring.
Qed.

(** C9.  [rmse] raises when the two sequences differ in length; on two
    sequences of one length [N >= 1] it returns the root of the mean of the
    squared differences; [rmse([0,0],[0,0]) = 0] and [rmse([1],[-1]) = 2]. *)
Theorem rmse_spec (actual predicted : list R) :
  (length actual <> length predicted ->
   exists e, rmse actual predicted = Raise e)
  /\ (length actual = length predicted -> actual <> [] ->
      rmse actual predicted = Ok (rmse_formula actual predicted))
  /\ rmse [0; 0] [0; 0] = Ok 0
  /\ rmse [1] [-1] = Ok 2.
Proof.
  split; [|split; [|split]].
  - intros H. exists ValueError. apply rmse_length_mismatch. exact H.
  - apply rmse_equal_length.
  - unfold rmse. simpl. f_equal.
    replace ((0 - 0) * (0 - 0) + ((0 - 0) * (0 - 0) + 0)) with 0 by ring.
    unfold Rdiv. rewrite Rmult_0_l. apply sqrt_0.
  - unfold rmse. simpl. f_equal.
    replace (((1 - -1) * (1 - -1) + 0) / 1) with (2 * 2) by field.
    apply sqrt_square. lra.
Qed.

Lemma rmse_spec_witness :
  (exists e, rmse [1; 2] [1] = Raise e)
  /\ rmse [1] [-1] = Ok (rmse_formula [1] [-1]).
Proof.
  destruct (rmse_spec [1; 2] [1]) as [H1 _].
  destruct (rmse_spec [1] [-1]) as [_ [H2 _]].
  split.
  - apply H1. simpl. lia.
  - apply H2; [reflexivity | discriminate].
Defined.

(** ** Lists of indices, rows and the heap *)

Lemma mem_false_iff (x : nat) (l : list nat) : mem x l = false <-> ~ In x l.
Proof.
  unfold mem. split.
  - intros H Hin.
    assert (Ht : existsb (Nat.eqb x) l = true).
    { apply existsb_exists. exists x. split; [exact Hin | apply Nat.eqb_refl]. }
    congruence.
  - intros H. destruct (existsb (Nat.eqb x) l) eqn:E; [|reflexivity].
    apply existsb_exists in E. destruct E as [y [Hy Hxy]].
    apply Nat.eqb_eq in Hxy. subst y. contradiction.
Qed.

Lemma incr_exposure_length (its : list Item) (k : nat) :
  length (incr_exposure its k) = length its.
Proof.
  revert k. induction its as [|i its IH]; intros [|k]; simpl; auto.
Qed.

Lemma incr_exposure_row (its : list Item) (k j : nat) :
  (k < length its)%nat ->
  exposure (row (incr_exposure its k) j)
  = exposure (row its j) + (if (j =? k)%nat then 1 else 0).
Proof.
  unfold row. revert k j. induction its as [|i its IH]; intros k j Hk.
  - simpl in Hk. lia.
  - destruct k as [|k]; destruct j as [|j]; simpl; try lra.
    apply IH. simpl in Hk. lia.
Qed.

Lemma incr_exposure_params (its : list Item) (k : nat) :
  map par_b (incr_exposure its k) = map par_b its.
Proof.
  revert k. induction its as [|i its IH]; intros [|k]; simpl; auto.
  rewrite IH. reflexivity.
Qed.

Lemma heap_append_length (h : list (list nat)) (ref x : nat) :
  length (heap_append h ref x) = length h.
Proof.
  revert ref. induction h as [|l h IH]; intros [|r]; simpl; auto.
Qed.

Lemma heap_append_deref (h : list (list nat)) (ref x r : nat) :
  (ref < length h)%nat ->
  deref (heap_append h ref x) r
  = if (r =? ref)%nat then deref h r ++ [x] else deref h r.
Proof.
  unfold deref. revert ref r. induction h as [|l h IH]; intros ref r Hr.
  - simpl in Hr. lia.
  - destruct ref as [|ref]; destruct r as [|r]; simpl; auto.
    apply IH. simpl in Hr. lia.
Qed.

Lemma count_occ_snoc (l : list nat) (x i : nat) :
  count_occ Nat.eq_dec (l ++ [x]) i
  = (count_occ Nat.eq_dec l i + (if (i =? x)%nat then 1 else 0))%nat.
Proof.
  rewrite count_occ_app. simpl.
  destruct (Nat.eq_dec x i) as [E|E].
  - subst. rewrite Nat.eqb_refl. reflexivity.
  - assert (Hb : (i =? x)%nat = false) by (apply Nat.eqb_neq; auto).
    rewrite Hb. reflexivity.
Qed.

Lemma heap_append_count (h : list (list nat)) (ref x i : nat) :
  (ref < length h)%nat ->
  count_occ Nat.eq_dec (concat (heap_append h ref x)) i
  = (count_occ Nat.eq_dec (concat h) i + (if (i =? x)%nat then 1 else 0))%nat.
Proof.
  revert ref. induction h as [|l h IH]; intros ref Hr.
  - simpl in Hr. lia.
  - destruct ref as [|ref]; simpl.
    + rewrite (count_occ_app Nat.eq_dec (l ++ [x])), count_occ_snoc.
      rewrite (count_occ_app Nat.eq_dec l). lia.
    + rewrite !count_occ_app, IH by (simpl in Hr; lia). lia.
Qed.

Lemma heap_append_lengths (h : list (list nat)) (ref x : nat) :
  (ref < length h)%nat ->
  length (concat (heap_append h ref x)) = S (length (concat h)).
Proof.
  revert ref. induction h as [|l h IH]; intros ref Hr.
  - simpl in Hr. lia.
  - destruct ref as [|ref]; simpl.
    + rewrite !length_app. simpl. lia.
    + rewrite !length_app, IH by (simpl in Hr; lia). lia.
Qed.

(** ** The selector *)

Section Selector.

Variable inf : R -> R -> R -> R -> R.

(** What the scan leaves in [selected_item]: its former value when no row
    passes the test of line 52, and otherwise the number of the last row
    that passes it. *)
Lemma scan_some (est : R) (adm : list nat) (rows : list Item)
    (counter : nat) (sel : option nat) (s : nat) :
  scan inf est adm rows counter sel = Some s ->
  (sel = Some s
   /\ forall j it, nth_error rows j = Some it ->
        eligible inf est adm (counter + j) it = false)
  \/ (exists j it,
        s = (counter + j)%nat /\ nth_error rows j = Some it
        /\ eligible inf est adm (counter + j) it = true
        /\ forall j' it', (j < j')%nat -> nth_error rows j' = Some it' ->
             eligible inf est adm (counter + j') it' = false).
Proof.
  revert counter sel. induction rows as [|i rest IH]; intros counter sel H.
  - simpl in H. left. split; [exact H|]. intros [|j] it Hj; discriminate.
  - simpl in H. fold (eligible inf est adm counter i) in H.
    destruct (IH _ _ H) as [[Hsel Hnone] | [j [it [Hs [Hj [He Hlast]]]]]].
    + destruct (eligible inf est adm counter i) eqn:E.
      * right. exists O, i. injection Hsel as <-.
        rewrite Nat.add_0_r. repeat split; auto.
        intros [|j'] it' Hlt Hj'; [lia|].
        rewrite Nat.add_succ_r. apply (Hnone j' it'). exact Hj'.
      * left. split; [exact Hsel|].
        intros [|j] it Hj.
        -- injection Hj as <-. rewrite Nat.add_0_r. exact E.
        -- rewrite Nat.add_succ_r. apply (Hnone j it). exact Hj.
    + right. exists (S j), it. rewrite Nat.add_succ_r.
      repeat split; auto.
      intros [|j'] it' Hlt Hj'; [lia|].
      rewrite Nat.add_succ_r. apply (Hlast j' it'); [lia | exact Hj'].
Qed.

Lemma scan_none (est : R) (adm : list nat) (rows : list Item)
    (counter : nat) :
  (forall j it, nth_error rows j = Some it ->
     eligible inf est adm (counter + j) it = false) ->
  forall sel, scan inf est adm rows counter sel = sel.
Proof.
  revert counter. induction rows as [|i rest IH]; intros counter Hnone sel.
  - reflexivity.
  - simpl. fold (eligible inf est adm counter i).
    pose proof (Hnone O i eq_refl) as E. rewrite Nat.add_0_r in E.
    rewrite E. apply IH. intros j it Hj.
    replace (S counter + j)%nat with (counter + S j)%nat by lia.
    apply Hnone. exact Hj.
Qed.

(** The step-1 pick is the last row that was not administered and whose
    information is greater than 0. *)
Lemma informative_pick_last (est : R) (adm : list nat) (its : list Item)
    (s : nat) :
  informative_pick inf est adm its = Some s ->
  exists it,
    nth_error its s = Some it
    /\ ~ In s adm
    /\ inf est (par_a it) (par_b it) (par_c it) > 0
    /\ forall k it', (s < k)%nat -> nth_error its k = Some it' ->
         eligible inf est adm k it' = false.
Proof.
  unfold informative_pick. intros H.
  destruct (scan_some _ _ _ _ _ _ H) as [[Hsel _] | [j [it [Hs [Hj [He Hlast]]]]]].
  - discriminate.
  - simpl in Hs. subst j. exists it. simpl in He.
    unfold eligible in He. apply andb_true_iff in He. destruct He as [Hm Hi].
    apply negb_true_iff in Hm. apply mem_false_iff in Hm.
    apply Rgtb_true in Hi. unfold max_inf in Hi.
    repeat split; auto.
Qed.

Lemma informative_pick_none (est : R) (adm : list nat) (its : list Item) :
  (forall k it, nth_error its k = Some it -> ~ In k adm ->
     ~ inf est (par_a it) (par_b it) (par_c it) > 0) ->
  informative_pick inf est adm its = None.
Proof.
  intros H. unfold informative_pick. apply scan_none.
  intros j it Hj. simpl. unfold eligible.
  destruct (mem j adm) eqn:Em; [reflexivity|].
  apply mem_false_iff in Em. simpl.
  apply Rgtb_false. unfold max_inf. apply (H j it Hj Em).
Qed.

Lemma substitute_ok (cl : nat) (clusters adm : list nat) (bank_size : nat)
    (tape : list nat) (r : nat) (tape' : list nat) :
  substitute cl clusters adm bank_size tape = Ok (r, tape') ->
  (r < bank_size)%nat /\ nth_error clusters r = Some cl /\ ~ In r adm.
Proof.
  revert r tape'. induction tape as [|n rest IH]; intros r tape' H.
  - discriminate.
  - simpl in H. destruct (bank_size =? 0)%nat eqn:Eb; [discriminate|].
    apply Nat.eqb_neq in Eb.
    destruct (nth_error clusters (n mod bank_size)) as [c|] eqn:Ec;
      [|discriminate].
    destruct ((cl =? c)%nat && negb (mem (n mod bank_size) adm)) eqn:E.
    + injection H as <- <-.
      apply andb_true_iff in E. destruct E as [E1 E2].
      apply Nat.eqb_eq in E1. subst c.
      apply negb_true_iff in E2. apply mem_false_iff in E2.
      repeat split; auto. apply Nat.mod_upper_bound. exact Eb.
    + apply IH with tape'. exact H.
Qed.

(** The loop ends as soon as the tape offers an item of the cluster that
    the examinee has not been given. *)
Lemma substitute_finds (cl : nat) (clusters adm : list nat)
    (bank_size : nat) (tape : list nat) :
  bank_size <> 0%nat -> (bank_size <= length clusters)%nat ->
  (exists n, In n tape
             /\ nth_error clusters (n mod bank_size) = Some cl
             /\ ~ In (n mod bank_size) adm) ->
  exists r tape', substitute cl clusters adm bank_size tape = Ok (r, tape').
Proof.
  intros Hb Hlen. induction tape as [|m rest IH]; intros [n [Hin [Hc Hn]]].
  - destruct Hin.
  - simpl. apply Nat.eqb_neq in Hb. rewrite Hb. apply Nat.eqb_neq in Hb.
    destruct (nth_error clusters (m mod bank_size)) as [c|] eqn:Ec.
    + destruct ((cl =? c)%nat && negb (mem (m mod bank_size) adm)) eqn:E.
      * eauto.
      * apply IH. destruct Hin as [<-|Hin]; [|eauto].
        exfalso. rewrite Hc in Ec. injection Ec as <-.
        rewrite Nat.eqb_refl in E. simpl in E.
        apply negb_false_iff in E.
        apply mem_false_iff in Hn. congruence.
    + exfalso. apply nth_error_None in Ec.
      pose proof (Nat.mod_upper_bound m bank_size Hb). lia.
Qed.

(** The loop entered without a pick returns only item 0, and only on an
    array of one entry. *)
Lemma substitute_none_ok (clusters adm : list nat) (bank_size : nat)
    (tape : list nat) (r : nat) (tape' : list nat) :
  substitute_none clusters adm bank_size tape = Ok (r, tape') ->
  r = 0%nat /\ (r < bank_size)%nat /\ ~ In r adm /\ length clusters = 1%nat.
Proof.
  revert r tape'. induction tape as [|n rest IH]; intros r tape' H.
  - discriminate.
  - simpl in H. destruct (bank_size =? 0)%nat eqn:Eb; [discriminate|].
    apply Nat.eqb_neq in Eb.
    destruct (nth_error clusters (n mod bank_size)) as [c|] eqn:Ec;
      [|discriminate].
    destruct clusters as [|c0 [|c1 cs]]; try discriminate.
    destruct ((c0 =? c)%nat && negb (mem (n mod bank_size) adm)) eqn:E.
    + injection H as <- <-.
      apply andb_true_iff in E. destruct E as [_ E2].
      apply negb_true_iff in E2. apply mem_false_iff in E2.
      assert (Hr : (n mod bank_size)%nat = 0%nat).
      { destruct (n mod bank_size)%nat as [|k]; [reflexivity|].
        destruct k; discriminate. }
      repeat split; auto. apply Nat.mod_upper_bound. exact Eb.
    + apply IH with tape'. exact H.
Qed.

(** On an array that does not have exactly one entry the loop entered
    without a pick raises at its first draw. *)
Lemma substitute_none_raises (clusters adm : list nat) (bank_size n : nat)
    (rest : list nat) :
  bank_size <> 0%nat -> length clusters <> 1%nat ->
  exists e, substitute_none clusters adm bank_size (n :: rest) = Raise e
            /\ e <> TapeEnd.
Proof.
  intros Hb Hl. simpl. apply Nat.eqb_neq in Hb. rewrite Hb.
  destruct (nth_error clusters (n mod bank_size)) as [cl|] eqn:Ec.
  - destruct clusters as [|c0 [|c1 cs]].
    + destruct (n mod bank_size)%nat; discriminate.
    + simpl in Hl. congruence.
    + exists ValueError. split; [reflexivity | discriminate].
  - exists IndexError. split; [reflexivity | discriminate].
Qed.

(** Whatever branch produced it, the selected item is a row of the bank
    that the examinee has not been given. *)
Lemma select_item_fresh (its : list Item) (clusters : ClusterMap) (est : R)
    (adm : list nat) (r_max : R) (tape : list nat) (s : nat)
    (tape' : list nat) :
  select_item inf its clusters est adm r_max tape = Ok (Some s, tape') ->
  (s < length its)%nat /\ ~ In s adm.
Proof.
  unfold select_item. intros H.
  destruct (length its) as [|counter] eqn:El; [discriminate|].
  destruct (exposure_check its counter (S counter) r_max).
  - destruct (informative_pick inf est adm its) as [p|].
    + destruct (nth_error clusters p) as [cl|]; [|discriminate].
      apply bind_ok in H. destruct H as [[r t'] [Hs Hr]].
      injection Hr as <- <-.
      apply substitute_ok in Hs. tauto.
    + destruct (is_ndarray clusters); [|discriminate].
      apply bind_ok in H. destruct H as [[r t'] [Hs Hr]].
      injection Hr as <- <-.
      apply substitute_none_ok in Hs. tauto.
  - injection H as Hp <-.
    destruct (informative_pick_last _ _ _ _ Hp) as [it [Hn [Hnot _]]].
    split; [|exact Hnot].
    rewrite <- El. apply nth_error_Some. congruence.
Qed.

(** The [if] of line 62 sends to the substitution loop exactly the picks
    for which the counter of the last row of the bank is 0 or
    [bank_size] divided by it is at least [r_max]. *)
Lemma select_item_branch (its : list Item) (clusters : ClusterMap) (est : R)
    (adm : list nat) (r_max : R) (tape : list nat) (last : Item) :
  nth_error its (length its - 1) = Some last ->
  select_item inf its clusters est adm r_max tape
  = if Reqb (exposure last) 0
       || (negb (Reqb (exposure last) 0)
           && Rgeb (INR (length its) / exposure last) r_max)
    then match informative_pick inf est adm its with
         | None =>
             if is_ndarray clusters then
               ' (random_item, ints') <-
                 substitute_none clusters adm (length its) tape ;;
               Ok (Some random_item, ints')
             else Raise TypeError
         | Some s =>
             match nth_error clusters s with
             | None => Raise IndexError
             | Some cl =>
                 ' (random_item, ints') <-
                   substitute cl clusters adm (length its) tape ;;
                 Ok (Some random_item, ints')
             end
         end
    else Ok (informative_pick inf est adm its, tape).
Proof.
  intros Hlast. unfold select_item.
  destruct (length its) as [|counter] eqn:El.
  - destruct its; discriminate.
  - unfold exposure_check, row.
    replace (S counter - 1)%nat with counter in Hlast by lia.
    rewrite (nth_error_nth its counter _ Hlast). reflexivity.
Qed.

End Selector.

(** ** The driver *)

Section Driver.

Variable inf : R -> R -> R -> R -> R.
Variable tpm : R -> R -> R -> R -> R.
Variable minimize : nat -> R -> list bool -> list Item -> R.

(** One administration appends one item, which was not in the list, to
    [administered_items] and to the list [id_itens], and adds 1 to that
    item's counter. *)
Lemma administer_ok (clusters : ClusterMap) (optimizer : nat)
    (r_max true_theta : R) (id_itens : nat) (w w' : World) (t t' : Test) :
  administer inf tpm minimize clusters optimizer r_max true_theta id_itens
    (w, t) = Ok (w', t') ->
  exists s,
    (s < length (items w))%nat
    /\ ~ In s (administered_items t)
    /\ administered_items t' = administered_items t ++ [s]
    /\ items w' = incr_exposure (items w) s
    /\ heap w' = heap_append (heap w) id_itens s.
Proof.
  unfold administer. intros H.
  apply bind_ok in H. destruct H as [[sel tape'] [Hsel H]].
  destruct sel as [s|]; [|discriminate].
  destruct (reals w) as [|u rs]; [discriminate|].
  apply bind_ok in H. destruct H as [est' [_ H]].
  injection H as <- <-. simpl.
  apply select_item_fresh in Hsel. destruct Hsel as [Hlt Hnot].
  exists s. repeat split; auto.
Qed.

Lemma administer_counts (clusters : ClusterMap) (optimizer : nat)
    (r_max true_theta : R) (id_itens : nat) (w w' : World) (t t' : Test) :
  administer inf tpm minimize clusters optimizer r_max true_theta id_itens
    (w, t) = Ok (w', t') ->
  (id_itens < length (heap w))%nat ->
  counts_match w -> counts_match w'.
Proof.
  intros H Hid Hinv.
  destruct (administer_ok _ _ _ _ _ _ _ _ _ H) as [s [Hlt [_ [_ [Hi Hh]]]]].
  unfold counts_match. rewrite Hi, Hh. intros i Hlen.
  rewrite incr_exposure_length in Hlen.
  rewrite incr_exposure_row by exact Hlt.
  rewrite heap_append_count by exact Hid.
  rewrite plus_INR, (Hinv i Hlen).
  destruct (i =? s)%nat; simpl; ring.
Qed.

(** A test of [n] administrations from the state [(w, t)]. *)
Lemma run_test_administered (n : nat) (clusters : ClusterMap)
    (optimizer : nat) (r_max true_theta : R) (id_itens : nat)
    (w w' : World) (t t' : Test) :
  run_test inf tpm minimize n clusters optimizer r_max true_theta id_itens
    (w, t) = Ok (w', t') ->
  exists new,
    length new = n
    /\ administered_items t' = administered_items t ++ new
    /\ (NoDup (administered_items t) -> NoDup (administered_items t')).
Proof.
  revert w t. induction n as [|n IH]; intros w t H.
  - simpl in H. injection H as <- <-. exists [].
    rewrite app_nil_r. repeat split; auto.
  - simpl in H. apply bind_ok in H. destruct H as [[w1 t1] [H1 H]].
    destruct (administer_ok _ _ _ _ _ _ _ _ _ H1) as [s [_ [Hnot [Ha _]]]].
    destruct (IH _ _ H) as [new [Hlen [Ha' Hnd]]].
    exists (s :: new). repeat split.
    + simpl. rewrite Hlen. reflexivity.
    + rewrite Ha', Ha, <- app_assoc. reflexivity.
    + intros Hn. apply Hnd. rewrite Ha.
      apply NoDup_rev in Hn. rewrite <- (rev_involutive (_ ++ [s])).
      apply NoDup_rev. rewrite rev_app_distr. simpl.
      constructor; [|exact Hn]. rewrite <- in_rev. exact Hnot.
Qed.

(** What a test does to the heap and to the counters: the administered
    items are appended to the list [id_itens] and to no other list. *)
Lemma run_test_heap (n : nat) (clusters : ClusterMap) (optimizer : nat)
    (r_max true_theta : R) (id_itens : nat) (w w' : World) (t t' : Test) :
  run_test inf tpm minimize n clusters optimizer r_max true_theta id_itens
    (w, t) = Ok (w', t') ->
  (id_itens < length (heap w))%nat ->
  (forall new, administered_items t' = administered_items t ++ new ->
     deref (heap w') id_itens = deref (heap w) id_itens ++ new)
  /\ (forall r, r <> id_itens -> deref (heap w') r = deref (heap w) r)
  /\ length (heap w') = length (heap w)
  /\ length (concat (heap w')) = (length (concat (heap w)) + n)%nat
  /\ length (items w') = length (items w)
  /\ (counts_match w -> counts_match w').
Proof.
  revert w t. induction n as [|n IH]; intros w t H Hid.
  - simpl in H. injection H as <- <-. repeat split; auto.
    intros new Hnew.
    assert (Hn : new = []).
    { apply (app_inv_head (administered_items t)).
      rewrite app_nil_r. symmetry. exact Hnew. }
    rewrite Hn, app_nil_r. reflexivity.
  - simpl in H. apply bind_ok in H. destruct H as [[w1 t1] [H1 H]].
    pose proof (administer_counts _ _ _ _ _ _ _ _ _ H1 Hid) as Hc1.
    destruct (administer_ok _ _ _ _ _ _ _ _ _ H1)
      as [s [Hlt [Hnot [Ha [Hi Hh]]]]].
    assert (Hid1 : (id_itens < length (heap w1))%nat)
      by (rewrite Hh, heap_append_length; exact Hid).
    destruct (IH _ _ H Hid1) as [Hd [Hother [Hhl [Hcl [Hil Hc]]]]].
    repeat split.
    + intros new Hnew.
      destruct (run_test_administered _ _ _ _ _ _ _ _ _ _ H)
        as [new1 [_ [Ha1 _]]].
      rewrite (Hd new1 Ha1), Hh, heap_append_deref by exact Hid.
      rewrite Nat.eqb_refl, <- app_assoc. f_equal.
      apply (app_inv_head (administered_items t)).
      rewrite <- Hnew, Ha1, Ha, <- app_assoc. reflexivity.
    + intros r Hr. rewrite Hother by exact Hr.
      rewrite Hh, heap_append_deref by exact Hid.
      apply Nat.eqb_neq in Hr. rewrite Hr. reflexivity.
    + rewrite Hhl, Hh. apply heap_append_length.
    + rewrite Hcl, Hh, heap_append_lengths by exact Hid. lia.
    + rewrite Hil, Hi. apply incr_exposure_length.
    + intros Hinv. apply Hc, Hc1, Hinv.
Qed.

Lemma run_examinee_ok (n_itens : nat) (clusters : ClusterMap)
    (optimizer : nat) (r_max true_theta : R) (id_itens : nat)
    (w w' : World) (t' : Test) :
  run_examinee inf tpm minimize n_itens clusters optimizer r_max true_theta
    id_itens w = Ok (w', t') ->
  length (administered_items t') = n_itens
  /\ NoDup (administered_items t').
Proof.
  unfold run_examinee. intros H.
  destruct (reals w) as [|u rs]; [discriminate|].
  apply run_test_administered in H.
  destruct H as [new [Hlen [Ha Hnd]]].
  simpl in *. subst new. split; [exact Hlen|]. apply Hnd. constructor.
Qed.

(** The list [id_itens] after an examinee's test is the list before it
    followed by the items of that examinee. *)
Lemma run_examinee_heap (n_itens : nat) (clusters : ClusterMap)
    (optimizer : nat) (r_max true_theta : R) (id_itens : nat)
    (w w' : World) (t' : Test) :
  run_examinee inf tpm minimize n_itens clusters optimizer r_max true_theta
    id_itens w = Ok (w', t') ->
  (id_itens < length (heap w))%nat ->
  deref (heap w') id_itens = deref (heap w) id_itens ++ administered_items t'
  /\ (forall r, r <> id_itens -> deref (heap w') r = deref (heap w) r)
  /\ length (heap w') = length (heap w)
  /\ length (concat (heap w')) = (length (concat (heap w)) + n_itens)%nat
  /\ length (items w') = length (items w)
  /\ (counts_match w -> counts_match w').
Proof.
  unfold run_examinee. intros H Hid.
  destruct (reals w) as [|u rs]; [discriminate|].
  apply run_test_heap in H; [|exact Hid].
  destruct H as [Hd [Hother [Hhl [Hcl [Hil Hc]]]]].
  simpl in *. repeat split; auto.
Qed.

(** C6.  Each administration appends to [administered_items] an item
    that the list did not hold, whether the scan or the substitution loop
    chose it; so the list of a finished test of [n_itens] administrations
    has [n_itens] entries and none twice.  This holds for every bank: on a
    bank smaller than the test the run does not reach the end of the
    test. *)
Theorem no_item_twice (n_itens : nat) (clusters : ClusterMap)
    (optimizer : nat) (r_max true_theta : R) (id_itens : nat) :
  (forall w t w' t',
     administer inf tpm minimize clusters optimizer r_max true_theta
       id_itens (w, t) = Ok (w', t') ->
     exists s, administered_items t' = administered_items t ++ [s]
               /\ ~ In s (administered_items t))
  /\ (forall w w' t',
        run_examinee inf tpm minimize n_itens clusters optimizer r_max
          true_theta id_itens w = Ok (w', t') ->
        NoDup (administered_items t')
        /\ length (administered_items t') = n_itens).
Proof.
  split.
  - intros w t w' t' H.
    destruct (administer_ok _ _ _ _ _ _ _ _ _ H) as [s [_ [Hnot [Ha _]]]].
    exists s. split; assumption.
  - intros w w' t' H.
    destruct (run_examinee_ok _ _ _ _ _ _ _ _ _ H) as [Hl Hn].
    split; assumption.
Qed.

(** *** The passes *)

Lemma run_examinees_ok (true_thetas : list R) (n_itens : nat)
    (clusters : ClusterMap) (optimizer : nat) (r_max : R) (id_itens : nat)
    (w w' : World) (acc acc' : list LocalResult * list R) :
  run_examinees inf tpm minimize true_thetas n_itens clusters optimizer
    r_max id_itens w acc = Ok (w', acc') ->
  (id_itens < length (heap w))%nat ->
  length (heap w') = length (heap w)
  /\ length (concat (heap w'))
     = (length (concat (heap w)) + length true_thetas * n_itens)%nat
  /\ length (items w') = length (items w)
  /\ (counts_match w -> counts_match w').
Proof.
  revert w acc. induction true_thetas as [|th rest IH]; intros w acc H Hid.
  - simpl in H. injection H as <- <-. simpl. repeat split; auto.
  - simpl in H. apply bind_ok in H. destruct H as [[w1 t1] [H1 H]].
    destruct (run_examinee_heap _ _ _ _ _ _ _ _ _ H1 Hid)
      as [_ [_ [Hhl [Hcl [Hil Hc]]]]].
    assert (Hid1 : (id_itens < length (heap w1))%nat) by (rewrite Hhl; exact Hid).
    destruct (IH _ _ H Hid1) as [Hhl' [Hcl' [Hil' Hc']]].
    repeat split.
    + congruence.
    + rewrite Hcl', Hcl. simpl. lia.
    + congruence.
    + intros Hinv. apply Hc', Hc, Hinv.
Qed.

Lemma run_pass_ok (true_thetas : list R) (n_itens : nat)
    (clusters : ClusterMap) (optimizer : nat) (verbose : bool) (r_max : R)
    (w w' : World) (res res' : list GlobalResult * list LocalResult) :
  run_pass inf tpm minimize true_thetas n_itens clusters optimizer verbose
    r_max (w, res) = Ok (w', res') ->
  length (heap w') = S (length (heap w))
  /\ length (concat (heap w'))
     = (length (concat (heap w)) + length true_thetas * n_itens)%nat
  /\ length (items w') = length (items w)
  /\ (counts_match w -> counts_match w').
Proof.
  unfold run_pass. intros H.
  destruct verbose; [discriminate|].
  apply bind_ok in H. destruct H as [[w1 [loc est]] [H1 H]].
  apply bind_ok in H. destruct H as [e [_ H]].
  apply bind_ok in H. destruct H as [T [_ H]].
  injection H as <- <-.
  apply run_examinees_ok in H1; [|simpl; rewrite length_app; simpl; lia].
  simpl in H1. destruct H1 as [Hhl [Hcl [Hil Hc]]].
  rewrite concat_app in Hcl. simpl in Hcl. rewrite app_nil_r in Hcl.
  repeat split; auto.
  - rewrite Hhl, length_app. simpl. lia.
  - intros Hinv. apply Hc. unfold counts_match in *. simpl.
    rewrite concat_app. simpl. rewrite app_nil_r. exact Hinv.
Qed.

Lemma run_passes_ok (r_maxes true_thetas : list R) (n_itens : nat)
    (clusters : ClusterMap) (optimizer : nat) (verbose : bool)
    (w w' : World) (res res' : list GlobalResult * list LocalResult) :
  run_passes inf tpm minimize r_maxes true_thetas n_itens clusters optimizer
    verbose (w, res) = Ok (w', res') ->
  length (heap w') = (length (heap w) + length r_maxes)%nat
  /\ length (concat (heap w'))
     = (length (concat (heap w))
        + length r_maxes * (length true_thetas * n_itens))%nat
  /\ length (items w') = length (items w)
  /\ (counts_match w -> counts_match w').
Proof.
  revert w res. induction r_maxes as [|r rest IH]; intros w res H.
  - simpl in H. injection H as <- <-. simpl. repeat split; auto.
  - simpl in H. apply bind_ok in H. destruct H as [[w1 res1] [H1 H]].
    destruct (run_pass_ok _ _ _ _ _ _ _ _ _ _ H1) as [Hhl [Hcl [Hil Hc]]].
    destruct (IH _ _ H) as [Hhl' [Hcl' [Hil' Hc']]].
    repeat split.
    + rewrite Hhl', Hhl. simpl. lia.
    + rewrite Hcl', Hcl. simpl. lia.
    + congruence.
    + intros Hinv. apply Hc', Hc, Hinv.
Qed.

(** The loop over the caps runs its passes one after the other on one
    state: the passes of [l2] start in the state the passes of [l1] end
    in. *)
Lemma run_passes_app (l1 l2 true_thetas : list R) (n_itens : nat)
    (clusters : ClusterMap) (optimizer : nat) (verbose : bool)
    (st : World * (list GlobalResult * list LocalResult)) :
  run_passes inf tpm minimize (l1 ++ l2) true_thetas n_itens clusters
    optimizer verbose st
  = bind (run_passes inf tpm minimize l1 true_thetas n_itens clusters
            optimizer verbose st)
         (run_passes inf tpm minimize l2 true_thetas n_itens clusters
            optimizer verbose).
Proof.
  revert st. induction l1 as [|r l1 IH]; intros st.
  - reflexivity.
  - simpl.
    destruct (run_pass inf tpm minimize true_thetas n_itens clusters
                optimizer verbose r st) as [st1|e]; simpl.
    + apply IH.
    + reflexivity.
Qed.

Lemma draw_length (n : nat) (tape xs tape' : list R) :
  draw n tape = Ok (xs, tape') -> length xs = n.
Proof.
  revert tape xs tape'. induction n as [|n IH]; intros tape xs tape' H.
  - simpl in H. injection H as <- <-. reflexivity.
  - simpl in H. destruct tape as [|x tape]; [discriminate|].
    apply bind_ok in H. destruct H as [[ys t2] [Hd H]].
    injection H as <- <-. simpl. f_equal. apply (IH _ _ _ Hd).
Qed.

(** The counters over a whole run.  They are 0 before the first cap and
    nothing resets them afterwards: each administration adds 1 to the counter of
    the administered item and leaves the others, so after the passes of the caps [r_maxes] (the
    state in which the next pass starts, and the state from which the last
    of these passes computed its Aggregate Record) the counter of an item
    is the number of times the item was administered in all these passes
    together, over [examinees * n_itens] administrations per pass. *)
Theorem exposure_counts_accumulate (r_maxes : list R)
    (bank : list (R * R * R)) (clusters : ClusterMap)
    (examinees n_itens optimizer : nat) (verbose : bool)
    (reals : list R) (ints : list nat) (w : World)
    (res : list GlobalResult * list LocalResult) :
  simCAT_caps inf tpm minimize r_maxes bank clusters examinees n_itens
    optimizer verbose reals ints = Ok (w, res) ->
  length (items w) = length bank
  /\ length (heap w) = length r_maxes
  /\ length (concat (heap w))
     = (length r_maxes * (examinees * n_itens))%nat
  /\ (forall i, (i < length bank)%nat ->
        exposure (row (items w) i)
        = INR (count_occ Nat.eq_dec (concat (heap w)) i))
  /\ (r_maxes = [] ->
      forall i, (i < length bank)%nat -> exposure (row (items w) i) = 0)
  /\ (forall r_max true_theta id_itens w0 t0 w1 t1,
        administer inf tpm minimize clusters optimizer r_max true_theta
          id_itens (w0, t0) = Ok (w1, t1) ->
        exists s, forall i,
          exposure (row (items w1) i)
          = exposure (row (items w0) i) + (if (i =? s)%nat then 1 else 0)).
Proof.
  unfold simCAT_caps, init_world. intros H.
  assert (Hstep : forall r_max true_theta id_itens w0 t0 w1 t1,
            administer inf tpm minimize clusters optimizer r_max true_theta
              id_itens (w0, t0) = Ok (w1, t1) ->
            exists s, forall i,
              exposure (row (items w1) i)
              = exposure (row (items w0) i) + (if (i =? s)%nat then 1 else 0)).
  { intros r_max true_theta id_itens w0 t0 w1 t1 Ha.
    destruct (administer_ok _ _ _ _ _ _ _ _ _ Ha) as [s [Hlt [_ [_ [Hi _]]]]].
    exists s. intros i. rewrite Hi. apply incr_exposure_row. exact Hlt. }
  apply bind_ok in H. destruct H as [[tts w0] [H0 H]].
  apply bind_ok in H0. destruct H0 as [[xs tape'] [Hd H0]].
  injection H0 as <- <-.
  apply draw_length in Hd.
  apply run_passes_ok in H. simpl in H.
  destruct H as [Hhl [Hcl [Hil Hc]]].
  rewrite length_map in Hil.
  assert (Hinv : counts_match w).
  { apply Hc. intros i Hi. simpl in *. unfold row.
    rewrite length_map in Hi.
    rewrite (nth_indep _ _ (mkItem (fst (fst (0, 0, 0))) (snd (fst (0, 0, 0)))
                              (snd (0, 0, 0)) 0)) by (rewrite length_map; exact Hi).
    rewrite (map_nth (fun p => mkItem (fst (fst p)) (snd (fst p)) (snd p) 0)).
    reflexivity. }
  assert (Hall : forall i, (i < length bank)%nat ->
            exposure (row (items w) i)
            = INR (count_occ Nat.eq_dec (concat (heap w)) i)).
  { intros i Hi. apply Hinv. rewrite Hil. exact Hi. }
  repeat split; auto.
  - rewrite Hcl, Hd. reflexivity.
  - intros -> i Hi. rewrite (Hall i Hi).
    simpl in Hhl. destruct (heap w); [reflexivity | discriminate].
Qed.

End Driver.

(** ** The concrete item-response model *)

Lemma tpm_3pl_bounds (theta a b c : R) :
  0 <= c < 1 -> c < tpm_3pl theta a b c < 1.
Proof.
  intros Hc. unfold tpm_3pl.
  pose proof (exp_pos (- a * (theta - b))) as He.
  set (e := exp (- a * (theta - b))) in *.
  assert (H1 : 0 < 1 + e) by lra.
  assert (H2 : 0 < (1 - c) / (1 + e)) by (apply Rdiv_lt_0_compat; lra).
  assert (H3 : (1 - c) / (1 + e) < 1 - c).
  { apply (Rmult_lt_reg_r (1 + e)); [exact H1|].
    unfold Rdiv. rewrite Rmult_assoc, Rinv_l by lra. nra. }
  lra.
Qed.

Lemma inf_3pl_pos (theta a b c : R) :
  a <> 0 -> 0 <= c < 1 -> inf_3pl theta a b c > 0.
Proof.
  intros Ha Hc. unfold inf_3pl.
  pose proof (tpm_3pl_bounds theta a b c Hc) as Hp.
  set (p := tpm_3pl theta a b c) in *. cbv zeta.
  assert (H1 : 0 < a ^ 2) by (simpl; nra).
  assert (H2 : 0 < (p - c) ^ 2) by (simpl; nra).
  assert (H3 : 0 < (1 - c) ^ 2) by (simpl; nra).
  assert (H4 : 0 < (p - c) ^ 2 / (1 - c) ^ 2)
    by (apply Rdiv_lt_0_compat; assumption).
  assert (H5 : 0 < (1 - p) / p) by (apply Rdiv_lt_0_compat; lra).
  apply Rmult_lt_0_compat; [apply Rmult_lt_0_compat|]; assumption.
Qed.

Lemma tpm_3pl_at_b (a b : R) : tpm_3pl b a b 0 = 1 / 2.
Proof.
  unfold tpm_3pl. replace (- a * (b - b)) with 0 by ring.
  rewrite exp_0. lra.
Qed.

Lemma inf_3pl_at_b (a b : R) : inf_3pl b a b 0 = a * a / 4.
Proof.
  unfold inf_3pl. rewrite tpm_3pl_at_b. cbv zeta. field.
Qed.

(** An item of discrimination 0 carries no information. *)
Lemma inf_3pl_flat (theta b c : R) : inf_3pl theta 0 b c = 0.
Proof.
  unfold inf_3pl. cbv zeta. unfold Rdiv. ring.
Qed.

(** Decides the comparisons of a run on a bank with guessing 0: the
    information of an item is positive and the probability of a correct
    response is above a draw of 0. *)
Ltac decide_3pl :=
  repeat match goal with
  | |- context [Rgtb (inf_3pl ?t ?a ?b ?c) max_inf] =>
      replace (Rgtb (inf_3pl t a b c) max_inf) with true
        by (symmetry; apply Rgtb_true; unfold max_inf;
            apply inf_3pl_pos; lra)
  | |- context [Rgeb (tpm_3pl ?t ?a ?b ?c) 0] =>
      replace (Rgeb (tpm_3pl t a b c) 0) with true
        by (symmetry; apply Rgeb_true;
            pose proof (tpm_3pl_bounds t a b c ltac:(lra)); lra)
  end.

Ltac run_step := progress (simpl; decide_3pl; decide_cmp).

(** ** The selector on concrete banks *)

(** C2.  On the bank of two items, none administered, at the estimate 0:
    the information of item 0 is 1 and that of item 1 is 1/4, and the scan
    leaves item 1 in [selected_item].  [max_inf] stays 0 during the scan,
    so every row with positive information replaces the selection. *)
Theorem scan_keeps_last_positive :
  inf_3pl 0 2 0 0 = 1
  /\ inf_3pl 0 1 0 0 = 1 / 4
  /\ informative_pick inf_3pl 0 [] (items2 0 0) = Some 1%nat.
Proof.
  split; [|split].
  - rewrite inf_3pl_at_b. lra.
  - rewrite inf_3pl_at_b. lra.
  - unfold informative_pick, items2. repeat run_step. reflexivity.
Qed.

(** C1.  The first administration of a run on the bank of two items: the
    scan picks item 1, whose counter is 0, and with a draw of 0 the
    selector returns item 0: it went through the substitution loop. *)
Theorem zero_exposure_pick_is_substituted :
  informative_pick inf_3pl 0 [] (items2 0 0) = Some 1%nat
  /\ exposure (row (items2 0 0) 1) = 0
  /\ select_item inf_3pl (items2 0 0) one_cluster 0 [] 1 [0%nat]
     = Ok (Some 0%nat, []).
Proof.
  split; [|split].
  - unfold informative_pick, items2. repeat run_step. reflexivity.
  - reflexivity.
  - unfold select_item, informative_pick, exposure_check, items2, one_cluster.
    repeat run_step. reflexivity.
Qed.

(** The complementary case, in a later pass on the same bank: the counter
    of the last row is 3, above [bank_size / r_max = 2], and the pick is
    returned as it is, with no draw taken from the tape. *)
Lemma high_exposure_pick_is_kept :
  select_item inf_3pl (items2 3 3) one_cluster 0 [] 1 [0%nat]
  = Ok (Some 1%nat, [0%nat]).
Proof.
  unfold select_item, informative_pick, exposure_check, items2, one_cluster.
  repeat run_step. reflexivity.
Qed.

(** ** No fallback *)

Section Fallback.

Variable inf : R -> R -> R -> R -> R.
Variable tpm : R -> R -> R -> R -> R.
Variable minimize : nat -> R -> list bool -> list Item -> R.

(** C8, amended.  When no item that the examinee has not been given has
    information greater than 0, the scan leaves [selected_item] at [None]
    and no rule chooses an item in its place.  With the cluster numbers in
    a list, or in an array that does not have exactly one entry, the
    administration raises a Python exception (for an array, after the
    first draw of the loop).  The selector returns an item only with an
    array of one entry, and then item 0, if the examinee has not been
    given it. *)
Theorem no_fallback (clusters : ClusterMap) (optimizer : nat)
    (r_max true_theta : R) (id_itens : nat) (w : World) (t : Test) :
  (forall k it, nth_error (items w) k = Some it ->
     ~ In k (administered_items t) ->
     ~ inf (est_theta t) (par_a it) (par_b it) (par_c it) > 0) ->
  informative_pick inf (est_theta t) (administered_items t) (items w) = None
  /\ (forall s tape',
        select_item inf (items w) clusters (est_theta t)
          (administered_items t) r_max (ints w) = Ok (Some s, tape') ->
        is_ndarray clusters = true /\ length clusters = 1%nat
        /\ s = 0%nat /\ ~ In 0%nat (administered_items t))
  /\ (is_ndarray clusters = false
      \/ (length clusters <> 1%nat /\ ints w <> []) ->
      exists e,
        administer inf tpm minimize clusters optimizer r_max true_theta
          id_itens (w, t) = Raise e
        /\ e <> TapeEnd).
Proof.
  intros H. pose proof (informative_pick_none inf _ _ _ H) as Hp.
  split; [exact Hp|]. split.
  - intros s tape' Hs. unfold select_item in Hs. rewrite Hp in Hs.
    destruct (length (items w)) as [|counter]; [discriminate|].
    destruct (exposure_check (items w) counter (S counter) r_max);
      [|discriminate].
    destruct (is_ndarray clusters); [|discriminate].
    apply bind_ok in Hs. destruct Hs as [[r t'] [Hn Hr]].
    injection Hr as <- <-.
    apply substitute_none_ok in Hn. destruct Hn as [-> [_ [Hnot Hl]]].
    repeat split; auto.
  - intros Hor. unfold administer, select_item. rewrite Hp.
    destruct (length (items w)) as [|counter].
    { exists NameError. split; [reflexivity | discriminate]. }
    destruct (exposure_check (items w) counter (S counter) r_max).
    2:{ exists IndexError. split; [reflexivity | discriminate]. }
    destruct (is_ndarray clusters).
    2:{ exists TypeError. split; [reflexivity | discriminate]. }
    destruct Hor as [Hf | [Hl Hi]]; [discriminate|].
    destruct (ints w) as [|n rest]; [congruence|].
    destruct (substitute_none_raises clusters (administered_items t)
                (S counter) n rest) as [e [E He]]; [lia | exact Hl |].
    rewrite E. exists e. split; [reflexivity | exact He].
Qed.

End Fallback.

(** C8 as stated fails: first administration on a bank of two items of
    discrimination 0.  Neither item was administered and neither has
    positive information; the selector returns no item, it raises, with
    the cluster numbers in a list and in an array alike. *)
Lemma no_fallback_counterexample :
  (forall k it, nth_error flat_items k = Some it ->
     ~ In k [] /\ ~ inf_3pl 0 (par_a it) (par_b it) (par_c it) > 0)
  /\ select_item inf_3pl flat_items one_cluster 0 [] 1 [0%nat; 1%nat]
     = Raise TypeError
  /\ select_item inf_3pl flat_items one_cluster_array 0 [] 1 [0%nat; 1%nat]
     = Raise ValueError.
Proof.
  split; [|split].
  - intros [|[|k]] it Hk.
    + injection Hk as <-. simpl. rewrite inf_3pl_flat. split; [tauto | lra].
    + injection Hk as <-. simpl. rewrite inf_3pl_flat. split; [tauto | lra].
    + destruct k; discriminate.
  - unfold select_item, informative_pick, exposure_check, flat_items,
      one_cluster.
    simpl. rewrite !inf_3pl_flat. unfold max_inf. decide_cmp. reflexivity.
  - unfold select_item, informative_pick, exposure_check, flat_items,
      one_cluster_array.
    simpl. rewrite !inf_3pl_flat. unfold max_inf. decide_cmp. reflexivity.
Qed.

Lemma no_fallback_witness :
  informative_pick inf_3pl 0 [] flat_items = None
  /\ exists e,
       administer inf_3pl tpm_3pl minimize_seed one_cluster_array 0 1 0 0
         (mkWorld flat_items [0] [0%nat] [[]], mkTest 0 [] []) = Raise e
       /\ e <> TapeEnd.
Proof.
  assert (H : forall k it,
            nth_error (items (mkWorld flat_items [0] [0%nat] [[]])) k = Some it ->
            ~ In k (administered_items (mkTest 0 [] [])) ->
            ~ inf_3pl (est_theta (mkTest 0 [] [])) (par_a it) (par_b it)
                (par_c it) > 0).
  { intros [|[|k]] it Hk _.
    - injection Hk as <-. simpl. rewrite inf_3pl_flat. lra.
    - injection Hk as <-. simpl. rewrite inf_3pl_flat. lra.
    - destruct k; discriminate. }
  destruct (no_fallback inf_3pl tpm_3pl minimize_seed one_cluster_array
              0%nat 1 0 0%nat _ _ H) as [Hp [_ He]].
  split; [exact Hp|]. apply He. right. split; simpl; discriminate.
Defined.

(** ** Runs on the bank of two items *)

Ltac run_test_steps :=
  unfold run_examinee, run_test, administer, select_item, informative_pick,
    exposure_check, dodd;
  repeat run_step.

(** A test of one item in which the substitution loop draws item 0. *)
Lemma one_item_test_draw0 (e0 r_max : R) (id : nat) (h : list (list nat))
    (rs : list R) (tape : list nat) :
  run_examinee inf_3pl tpm_3pl minimize_seed 1
    (mkClusters false [0%nat; 0%nat]) 0 r_max 0 id
    (mkWorld [mkItem 2 0 0 e0; mkItem 1 0 0 0] (0 :: 0 :: rs)
       (0%nat :: tape) h)
  = Ok (mkWorld [mkItem 2 0 0 (e0 + 1); mkItem 1 0 0 0] rs tape
          (heap_append h id 0),
        mkTest (0 + (0 - 0) / 2) [0%nat] [true]).
Proof. run_test_steps. reflexivity. Qed.

(** A test of one item in which the substitution loop draws item 1. *)
Lemma one_item_test_draw1 (e0 r_max : R) (id : nat) (h : list (list nat))
    (rs : list R) (tape : list nat) :
  run_examinee inf_3pl tpm_3pl minimize_seed 1
    (mkClusters false [0%nat; 0%nat]) 0 r_max 0 id
    (mkWorld [mkItem 2 0 0 e0; mkItem 1 0 0 0] (0 :: 0 :: rs)
       (1%nat :: tape) h)
  = Ok (mkWorld [mkItem 2 0 0 e0; mkItem 1 0 0 (0 + 1)] rs tape
          (heap_append h id 1),
        mkTest (0 + (0 - 0) / 2) [1%nat] [true]).
Proof. run_test_steps. reflexivity. Qed.

(** A test of two items: the first draw gives item 0, the second draw
    gives item 0 again and is rejected, the third gives item 1. *)
Lemma two_item_test :
  exists w' t',
    run_examinee inf_3pl tpm_3pl minimize_seed 2 one_cluster 0 1 0 0
      (mkWorld (items2 0 0) [0; 0; 0] [0%nat; 0%nat; 1%nat] [[]])
    = Ok (w', t')
    /\ administered_items t' = [0%nat; 1%nat].
Proof.
  do 2 eexists. unfold items2, one_cluster. run_test_steps.
  split; reflexivity.
Qed.

Lemma no_item_twice_witness :
  exists w' t',
    run_examinee inf_3pl tpm_3pl minimize_seed 2 one_cluster 0 1 0 0
      (mkWorld (items2 0 0) [0; 0; 0] [0%nat; 0%nat; 1%nat] [[]])
    = Ok (w', t')
    /\ NoDup (administered_items t')
    /\ length (administered_items t') = 2%nat.
Proof.
  destruct two_item_test as [w' [t' [E _]]].
  exists w', t'. split; [exact E|].
  apply (proj2 (no_item_twice inf_3pl tpm_3pl minimize_seed 2 one_cluster
                  0%nat 1 0 0%nat) _ _ _ E).
Defined.

(** The run of two caps, one examinee and one item per test in which both
    substitution loops draw item 0. *)
Lemma two_cap_run :
  exists w res,
    simCAT inf_3pl tpm_3pl minimize_seed bank2 one_cluster 1 1 2 0 false
      [0; 0; 0; 0; 0] [0%nat; 0%nat] = Ok (w, res)
    /\ map exposure (items w) = [0 + 1 + 1; 0]
    /\ heap w = [[0%nat]; [0%nat]]
    /\ map Overlap (fst res) = [1; 5 / 2].
Proof.
  do 2 eexists. unfold simCAT, simCAT_caps, bank2, one_cluster.
  simpl. rewrite one_item_test_draw0. simpl.
  rewrite one_item_test_draw0. simpl.
  split; [reflexivity|]. split; [reflexivity|]. split; [reflexivity|].
  unfold np_var, np_mean. simpl. f_equal; [|f_equal]; field.
Qed.

(** C3.  The run of two caps, one examinee and one item per test: the
    second pass starts with the counter of item 0 at 1, and its Aggregate
    Record takes its Overlap, 5/2, from the counts [2, 0] of both passes;
    the counts [1, 0] of the administrations of the second pass alone give
    1. *)
Theorem counters_carry_over_to_next_cap :
  (exists w res,
     state_at_cap inf_3pl tpm_3pl minimize_seed 1 bank2 one_cluster 1 1 2 0
       false [0; 0; 0; 0; 0] [0%nat; 0%nat] = Ok (w, res)
     /\ map exposure (items w) = [0 + 1; 0])
  /\ (exists w res,
        simCAT inf_3pl tpm_3pl minimize_seed bank2 one_cluster 1 1 2 0 false
          [0; 0; 0; 0; 0] [0%nat; 0%nat] = Ok (w, res)
        /\ map exposure (items w) = [0 + 1 + 1; 0]
        /\ map Overlap (fst res) = [1; 5 / 2])
  /\ overlap_rate (items2 1 0) 1 = Ok 1.
Proof.
  split; [|split].
  - do 2 eexists. unfold state_at_cap, simCAT_caps, bank2, one_cluster.
    simpl. rewrite one_item_test_draw0. simpl.
    split; reflexivity.
  - destruct two_cap_run as [w [res [E [He [_ Ho]]]]].
    exists w, res. repeat split; assumption.
  - unfold overlap_rate, np_var, np_mean, items2. simpl. f_equal. field.
Qed.

Lemma exposure_counts_accumulate_witness :
  exists w res,
    simCAT_caps inf_3pl tpm_3pl minimize_seed (linspace (1 / 10) 1 2) bank2
      one_cluster 1 1 0 false [0; 0; 0; 0; 0] [0%nat; 0%nat] = Ok (w, res)
    /\ length (heap w) = 2%nat
    /\ length (concat (heap w)) = 2%nat
    /\ exposure (row (items w) 0%nat)
       = INR (count_occ Nat.eq_dec (concat (heap w)) 0%nat).
Proof.
  destruct two_cap_run as [w [res [E _]]].
  destruct (exposure_counts_accumulate inf_3pl tpm_3pl minimize_seed _ _ _
              _ _ _ _ _ _ _ _ E) as [_ [H1 [H2 [H3 _]]]].
  exists w, res. split; [exact E|]. split; [exact H1|]. split; [exact H2|].
  apply H3. simpl. lia.
Defined.

(** C4.  The run of one cap, two examinees and one item per test in which
    the first examinee is given item 0 and the second item 1: both
    Simulation Records refer to one list, which holds the two items. *)
Theorem records_share_id_itens :
  exists w g r1 r2,
    simCAT inf_3pl tpm_3pl minimize_seed bank2 one_cluster 2 1 1 0 false
      [0; 0; 0; 0; 0; 0] [0%nat; 1%nat] = Ok (w, (g, [r1; r2]))
    /\ Id_Itens r1 = Id_Itens r2
    /\ deref (heap w) (Id_Itens r2) = [0%nat; 1%nat].
Proof.
  do 4 eexists. unfold simCAT, simCAT_caps, bank2, one_cluster.
  simpl. rewrite one_item_test_draw0. simpl.
  rewrite one_item_test_draw1. simpl.
  split; [reflexivity|]. split; reflexivity.
Qed.

(** * Further properties of the code *)

(** ** Edge cases of [simCAT] *)

Lemma draw_enough (n : nat) (tape : list R) :
  (n <= length tape)%nat -> draw n tape = Ok (firstn n tape, skipn n tape).
Proof.
  revert tape. induction n as [|n IH]; intros tape H.
  - reflexivity.
  - destruct tape as [|x tape]; [simpl in H; lia|].
    simpl. rewrite IH by (simpl in H; lia). reflexivity.
Qed.

Section Edges.

Variable inf : R -> R -> R -> R -> R.
Variable tpm : R -> R -> R -> R -> R.
Variable minimize : nat -> R -> list bool -> list Item -> R.

(** X1.  With [verbose] set and at least one cap, [simCAT] raises
    [TypeError] on line 33, before any examinee is simulated: the message
    adds a string and the int [r_max_interval]. *)
Theorem verbose_raises (bank : list (R * R * R)) (clusters : ClusterMap)
    (examinees n_itens r_max_interval optimizer : nat) (reals : list R)
    (ints : list nat) :
  (examinees <= length reals)%nat -> (0 < r_max_interval)%nat ->
  simCAT inf tpm minimize bank clusters examinees n_itens r_max_interval
    optimizer true reals ints = Raise TypeError.
Proof.
  intros Hr Hn. unfold simCAT, simCAT_caps, init_world.
  rewrite (draw_enough _ _ Hr).
  destruct r_max_interval as [|k]; [lia|]. reflexivity.
Qed.

(** X2.  On an empty bank the scan never binds [counter], and the first
    administration raises [NameError] on line 62. *)
Theorem empty_bank_raises (clusters : ClusterMap)
    (examinees n_itens r_max_interval optimizer : nat) (reals : list R)
    (ints : list nat) :
  (0 < examinees)%nat -> (0 < n_itens)%nat -> (0 < r_max_interval)%nat ->
  (examinees < length reals)%nat ->
  simCAT inf tpm minimize [] clusters examinees n_itens r_max_interval
    optimizer false reals ints = Raise NameError.
Proof.
  intros He Hq Hn Hr. unfold simCAT, simCAT_caps, init_world.
  rewrite (draw_enough examinees reals) by lia.
  destruct r_max_interval as [|k]; [lia|].
  destruct n_itens as [|q]; [lia|].
  assert (Ht : length (firstn examinees reals) = examinees)
    by (rewrite length_firstn; lia).
  assert (Hs : length (skipn examinees reals) = (length reals - examinees)%nat)
    by apply length_skipn.
  destruct (firstn examinees reals) as [|th tts]; [simpl in Ht; lia|].
  destruct (skipn examinees reals) as [|u rs]; [simpl in Hs; lia|].
  reflexivity.
Qed.

Lemma run_examinees_no_items (true_thetas : list R) (clusters : ClusterMap)
    (optimizer : nat) (r_max : R) (id_itens : nat) (w : World)
    (acc : list LocalResult * list R) :
  (length true_thetas <= length (reals w))%nat ->
  exists w' acc',
    run_examinees inf tpm minimize true_thetas 0 clusters optimizer r_max
      id_itens w acc = Ok (w', acc')
    /\ items w' = items w
    /\ length (snd acc') = (length (snd acc) + length true_thetas)%nat.
Proof.
  revert w acc. induction true_thetas as [|th rest IH]; intros w acc H.
  - exists w, acc. simpl. repeat split; auto.
  - simpl. unfold run_examinee.
    destruct (reals w) as [|u rs] eqn:Er; [simpl in H; lia|].
    simpl.
    destruct (IH (mkWorld (items w) rs (ints w) (heap w))
                (fst acc ++ [mkLocal th u id_itens r_max], snd acc ++ [u]))
      as [w' [acc' [E [Hi Hl]]]].
    { simpl in *. lia. }
    exists w', acc'. split; [exact E|]. split; [exact Hi|].
    rewrite Hl. simpl. rewrite length_app. simpl. lia.
Qed.

(** X3.  With a test length of 0 the examinees are processed without any
    administration and the first Aggregate Record fails: [overlap_rate]
    divides the bank size by [n_itens = 0] and raises
    [ZeroDivisionError]. *)
Theorem zero_test_length_raises (bank : list (R * R * R))
    (clusters : ClusterMap) (examinees r_max_interval optimizer : nat)
    (reals : list R) (ints : list nat) :
  (0 < examinees)%nat -> (0 < r_max_interval)%nat ->
  (2 * examinees <= length reals)%nat ->
  simCAT inf tpm minimize bank clusters examinees 0 r_max_interval
    optimizer false reals ints = Raise ZeroDivisionError.
Proof.
  intros He Hn Hr. unfold simCAT, simCAT_caps, init_world.
  rewrite (draw_enough examinees reals) by lia.
  destruct r_max_interval as [|k]; [lia|].
  unfold linspace. simpl seq. simpl map. simpl bind.
  unfold run_pass.
  match goal with
  | |- context [run_examinees _ _ _ ?tts 0 ?cl ?o ?r ?id ?w ?acc] =>
      destruct (run_examinees_no_items tts cl o r id w acc)
        as [w' [[loc est] [E [Hi Hl]]]]
  end.
  { simpl. rewrite length_firstn, length_skipn. lia. }
  rewrite E. simpl bind. simpl in Hl.
  rewrite rmse_equal_length.
  - simpl. reflexivity.
  - rewrite Hl. reflexivity.
  - destruct reals as [|x reals]; [simpl in Hr; lia|].
    destruct examinees; [lia | discriminate].
Qed.

End Edges.

Lemma verbose_raises_witness :
  simCAT inf_3pl tpm_3pl minimize_seed bank2 one_cluster 1 1 2 0 true
    [0; 0; 0; 0; 0] [0%nat; 0%nat] = Raise TypeError.
Proof.
  apply verbose_raises; simpl; lia.
Defined.

Lemma empty_bank_raises_witness :
  simCAT inf_3pl tpm_3pl minimize_seed [] (mkClusters false []) 1 1 1 0
    false [0; 0] []
  = Raise NameError.
Proof.
  apply empty_bank_raises; simpl; lia.
Defined.

Lemma zero_test_length_raises_witness :
  simCAT inf_3pl tpm_3pl minimize_seed bank2 one_cluster 1 0 1 0 false
    [0; 0] [] = Raise ZeroDivisionError.
Proof.
  apply zero_test_length_raises; simpl; lia.
Defined.

(** ** What a run leaves in the counters, the heap and the result lists *)

Lemma incr_exposure_sum (its : list Item) (k : nat) :
  (k < length its)%nat ->
  np_sum (map exposure (incr_exposure its k))
  = np_sum (map exposure its) + 1.
Proof.
  revert k. induction its as [|i its IH]; intros k Hk.
  - simpl in Hk. lia.
  - destruct k as [|k]; simpl.
    + ring.
    + rewrite IH by (simpl in Hk; lia). ring.
Qed.

Lemma deref_app_old (h : list (list nat)) (l : list nat) (r : nat) :
  (r < length h)%nat -> deref (h ++ [l]) r = deref h r.
Proof. intros H. unfold deref. apply app_nth1. exact H. Qed.

Lemma deref_app_new (h : list (list nat)) (l : list nat) :
  deref (h ++ [l]) (length h) = l.
Proof.
  unfold deref. rewrite app_nth2 by lia.
  replace (length h - length h)%nat with 0%nat by lia. reflexivity.
Qed.

Lemma bounded_nodup_length (l : list nat) (N : nat) :
  NoDup l -> (forall x, In x l -> (x < N)%nat) -> (length l <= N)%nat.
Proof.
  intros Hn Hb. rewrite <- (length_seq N 0).
  apply NoDup_incl_length; [exact Hn|].
  intros x Hx. apply in_seq. specialize (Hb x Hx). lia.
Qed.

Section Shape.

Variable inf : R -> R -> R -> R -> R.
Variable tpm : R -> R -> R -> R -> R.
Variable minimize : nat -> R -> list bool -> list Item -> R.

Lemma run_test_sum (n : nat) (clusters : ClusterMap) (optimizer : nat)
    (r_max true_theta : R) (id_itens : nat) (w w' : World) (t t' : Test) :
  run_test inf tpm minimize n clusters optimizer r_max true_theta id_itens
    (w, t) = Ok (w', t') ->
  length (items w') = length (items w)
  /\ np_sum (map exposure (items w'))
     = np_sum (map exposure (items w)) + INR n
  /\ (forall x, In x (administered_items t') ->
        In x (administered_items t) \/ (x < length (items w))%nat).
Proof.
  revert w t. induction n as [|n IH]; intros w t H.
  - simpl in H. injection H as <- <-. simpl. repeat split; auto. ring.
  - simpl in H. apply bind_ok in H. destruct H as [[w1 t1] [H1 H]].
    destruct (administer_ok _ _ _ _ _ _ _ _ _ _ _ _ H1)
      as [s [Hlt [_ [Ha [Hi _]]]]].
    destruct (IH _ _ H) as [Hl [Hs Hb]].
    assert (Hl1 : length (items w1) = length (items w))
      by (rewrite Hi; apply incr_exposure_length).
    repeat split.
    + congruence.
    + rewrite Hs, Hi, incr_exposure_sum by exact Hlt.
      rewrite S_INR. ring.
    + intros x Hx. destruct (Hb x Hx) as [Hx1|Hx1].
      * rewrite Ha in Hx1. apply in_app_or in Hx1.
        destruct Hx1 as [Hx1|[<-|[]]]; auto.
      * right. rewrite <- Hl1. exact Hx1.
Qed.

Lemma run_examinee_sum (n_itens : nat) (clusters : ClusterMap)
    (optimizer : nat) (r_max true_theta : R) (id_itens : nat)
    (w w' : World) (t' : Test) :
  run_examinee inf tpm minimize n_itens clusters optimizer r_max true_theta
    id_itens w = Ok (w', t') ->
  np_sum (map exposure (items w'))
  = np_sum (map exposure (items w)) + INR n_itens
  /\ (forall x, In x (administered_items t') -> (x < length (items w))%nat).
Proof.
  unfold run_examinee. intros H.
  destruct (reals w) as [|u rs]; [discriminate|].
  apply run_test_sum in H. simpl in H. destruct H as [_ [Hs Hb]].
  split; [exact Hs|]. intros x Hx. destruct (Hb x Hx) as [[]|Hlt]. exact Hlt.
Qed.

Lemma run_examinee_fits (n_itens : nat) (clusters : ClusterMap)
    (optimizer : nat) (r_max true_theta : R) (id_itens : nat)
    (w w' : World) (t' : Test) :
  run_examinee inf tpm minimize n_itens clusters optimizer r_max true_theta
    id_itens w = Ok (w', t') ->
  (n_itens <= length (items w))%nat.
Proof.
  intros H.
  destruct (run_examinee_ok _ _ _ _ _ _ _ _ _ _ _ _ H) as [Hl Hn].
  destruct (run_examinee_sum _ _ _ _ _ _ _ _ _ H) as [_ Hb].
  rewrite <- Hl. apply bounded_nodup_length; assumption.
Qed.

(** The loop over the examinees of one pass. *)
Lemma run_examinees_shape (true_thetas : list R) (n_itens : nat)
    (clusters : ClusterMap) (optimizer : nat) (r_max : R) (id_itens : nat)
    (w w' : World) (acc acc' : list LocalResult * list R) :
  run_examinees inf tpm minimize true_thetas n_itens clusters optimizer
    r_max id_itens w acc = Ok (w', acc') ->
  (id_itens < length (heap w))%nat ->
  (exists new,
     fst acc' = fst acc ++ new
     /\ snd acc' = snd acc ++ map Est_Theta new
     /\ map Theta new = true_thetas
     /\ Forall (fun r => l_r_max r = r_max /\ Id_Itens r = id_itens) new)
  /\ length (deref (heap w') id_itens)
     = (length (deref (heap w) id_itens) + length true_thetas * n_itens)%nat
  /\ (forall r, r <> id_itens -> deref (heap w') r = deref (heap w) r)
  /\ np_sum (map exposure (items w'))
     = np_sum (map exposure (items w)) + INR (length true_thetas * n_itens)
  /\ (true_thetas <> [] -> (n_itens <= length (items w))%nat).
Proof.
  revert w acc. induction true_thetas as [|th rest IH]; intros w acc H Hid.
  - simpl in H. injection H as <- <-. simpl. repeat split; auto.
    + exists []. rewrite !app_nil_r. repeat split; auto.
    + ring.
    + congruence.
  - simpl in H. apply bind_ok in H. destruct H as [[w1 t1] [H1 H]].
    destruct (run_examinee_heap _ _ _ _ _ _ _ _ _ _ _ _ H1 Hid)
      as [Hd [Hother [Hhl [_ [Hil _]]]]].
    destruct (run_examinee_ok _ _ _ _ _ _ _ _ _ _ _ _ H1) as [Hlen _].
    destruct (run_examinee_sum _ _ _ _ _ _ _ _ _ H1) as [Hs _].
    pose proof (run_examinee_fits _ _ _ _ _ _ _ _ _ H1) as Hfit.
    assert (Hid1 : (id_itens < length (heap w1))%nat)
      by (rewrite Hhl; exact Hid).
    destruct (IH _ _ H Hid1)
      as [[new [Hf [Hsn [Hth Hall]]]] [Hd' [Hother' [Hs' _]]]].
    simpl in Hf, Hsn.
    repeat split.
    + exists (mkLocal th (est_theta t1) id_itens r_max :: new).
      repeat split.
      * rewrite Hf, <- app_assoc. reflexivity.
      * rewrite Hsn, <- app_assoc. reflexivity.
      * simpl. rewrite Hth. reflexivity.
      * constructor; [split; reflexivity | exact Hall].
    + rewrite Hd', Hd, length_app, Hlen. simpl. lia.
    + intros r Hr. rewrite Hother', Hother by exact Hr. reflexivity.
    + rewrite Hs', Hs.
      replace (length (th :: rest) * n_itens)%nat
        with (n_itens + length rest * n_itens)%nat by (simpl; lia).
      rewrite plus_INR. ring.
    + intros _. exact Hfit.
Qed.

(** One pass. *)
Lemma run_pass_shape (true_thetas : list R) (n_itens : nat)
    (clusters : ClusterMap) (optimizer : nat) (verbose : bool) (r_max : R)
    (w w' : World) (res res' : list GlobalResult * list LocalResult) :
  run_pass inf tpm minimize true_thetas n_itens clusters optimizer verbose
    r_max (w, res) = Ok (w', res') ->
  (exists G new,
     fst res' = fst res ++ [G]
     /\ snd res' = snd res ++ new
     /\ Qtd_Itens G = n_itens
     /\ g_r_max G = r_max
     /\ rmse (map Theta new) (map Est_Theta new) = Ok (RMSE G)
     /\ overlap_rate (items w') n_itens = Ok (Overlap G)
     /\ map Theta new = true_thetas
     /\ Forall (fun r => l_r_max r = r_max /\ Id_Itens r = length (heap w))
          new)
  /\ length (deref (heap w') (length (heap w)))
     = (length true_thetas * n_itens)%nat
  /\ (forall r, (r < length (heap w))%nat ->
        deref (heap w') r = deref (heap w) r)
  /\ np_sum (map exposure (items w'))
     = np_sum (map exposure (items w)) + INR (length true_thetas * n_itens)
  /\ (true_thetas <> [] -> (n_itens <= length (items w))%nat).
Proof.
  unfold run_pass. intros H.
  destruct verbose; [discriminate|].
  apply bind_ok in H. destruct H as [[w1 [loc est]] [H1 H]].
  apply bind_ok in H. destruct H as [e [He H]].
  apply bind_ok in H. destruct H as [T [HT H]].
  injection H as <- <-.
  apply run_examinees_shape in H1; [|simpl; rewrite length_app; simpl; lia].
  simpl in H1.
  destruct H1 as [[new [Hf [Hsn [Hth Hall]]]] [Hd [Hother [Hs Hfit]]]].
  rewrite deref_app_new in Hd. simpl in Hd.
  repeat split; auto.
  - exists (mkGlobal n_itens e T r_max), new. simpl.
    repeat split; auto.
    rewrite Hth. rewrite <- Hsn. exact He.
  - intros r Hr. rewrite Hother by lia. apply deref_app_old. exact Hr.
Qed.

(** The loop over the caps. *)
Lemma run_passes_shape (r_maxes true_thetas : list R) (n_itens : nat)
    (clusters : ClusterMap) (optimizer : nat) (verbose : bool)
    (w w' : World) (res res' : list GlobalResult * list LocalResult) :
  run_passes inf tpm minimize r_maxes true_thetas n_itens clusters optimizer
    verbose (w, res) = Ok (w', res') ->
  (exists gs ls,
     fst res' = fst res ++ gs
     /\ snd res' = snd res ++ ls
     /\ map g_r_max gs = r_maxes
     /\ Forall (fun G => Qtd_Itens G = n_itens) gs
     /\ map Theta ls = concat (repeat true_thetas (length r_maxes))
     /\ map l_r_max ls
        = flat_map (fun r => repeat r (length true_thetas)) r_maxes
     /\ map Id_Itens ls
        = flat_map (fun v => repeat v (length true_thetas))
            (seq (length (heap w)) (length r_maxes)))
  /\ (forall r, (length (heap w) <= r < length (heap w) + length r_maxes)%nat ->
        length (deref (heap w') r) = (length true_thetas * n_itens)%nat)
  /\ (forall r, (r < length (heap w))%nat ->
        deref (heap w') r = deref (heap w) r)
  /\ np_sum (map exposure (items w'))
     = np_sum (map exposure (items w))
       + INR (length r_maxes * (length true_thetas * n_itens))
  /\ (r_maxes <> [] -> true_thetas <> [] ->
      (n_itens <= length (items w))%nat).
Proof.
  revert w res. induction r_maxes as [|r rest IH]; intros w res H.
  - simpl in H. injection H as <- <-. simpl. repeat split; auto.
    + exists [], []. rewrite !app_nil_r. repeat split; auto.
    + intros r Hr. lia.
    + ring.
    + congruence.
  - simpl in H. apply bind_ok in H. destruct H as [[w1 res1] [H1 H]].
    destruct (run_pass_ok _ _ _ _ _ _ _ _ _ _ _ _ _ H1) as [Hhl _].
    destruct (run_pass_shape _ _ _ _ _ _ _ _ _ _ H1)
      as [[G [new [Hg [Hl [HQ [Hr [_ [_ [Hth Hall]]]]]]]]]
          [Hd [Hother [Hs Hfit]]]].
    destruct (IH _ _ H)
      as [[gs [ls [Hg' [Hl' [Hrm [HQs [Hths [Hlr Hids]]]]]]]]
          [Hd' [Hother' [Hs' _]]]].
    assert (Hnew_r : map l_r_max new = repeat r (length true_thetas)).
    { rewrite <- Hth, length_map. clear - Hall.
      induction Hall as [|x l [Hx _] _ IHl]; simpl; [reflexivity|].
      rewrite Hx, IHl. reflexivity. }
    assert (Hnew_id : map Id_Itens new
                      = repeat (length (heap w)) (length true_thetas)).
    { rewrite <- Hth, length_map. clear - Hall.
      induction Hall as [|x l [_ Hx] _ IHl]; simpl; [reflexivity|].
      rewrite Hx, IHl. reflexivity. }
    repeat split.
    + exists (G :: gs), (new ++ ls). repeat split.
      * rewrite Hg', Hg, <- app_assoc. reflexivity.
      * rewrite Hl', Hl, <- app_assoc. reflexivity.
      * simpl. rewrite Hr, Hrm. reflexivity.
      * constructor; assumption.
      * rewrite map_app, Hth, Hths. reflexivity.
      * rewrite map_app, Hnew_r, Hlr. reflexivity.
      * rewrite map_app, Hnew_id, Hids, Hhl. reflexivity.
    + intros v Hv. simpl in Hv.
      destruct (Nat.eq_dec v (length (heap w))) as [->|Hne].
      * rewrite Hother' by lia. exact Hd.
      * apply Hd'. rewrite Hhl. lia.
    + intros v Hv. rewrite Hother' by lia. apply Hother. exact Hv.
    + rewrite Hs', Hs.
      replace (length (r :: rest) * (length true_thetas * n_itens))%nat
        with (length true_thetas * n_itens
              + length rest * (length true_thetas * n_itens))%nat
        by (simpl; lia).
      rewrite plus_INR. ring.
    + intros _ Ht. apply Hfit. exact Ht.
Qed.

End Shape.

Lemma draw_firstn (n : nat) (tape xs tape' : list R) :
  draw n tape = Ok (xs, tape') -> xs = firstn n tape /\ length xs = n.
Proof.
  revert tape xs tape'. induction n as [|n IH]; intros tape xs tape' H.
  - simpl in H. injection H as <- <-. split; reflexivity.
  - simpl in H. destruct tape as [|x tape]; [discriminate|].
    apply bind_ok in H. destruct H as [[ys t2] [Hd H]].
    injection H as <- <-. destruct (IH _ _ _ Hd) as [-> Hl].
    split; [reflexivity|]. simpl. rewrite Hl. reflexivity.
Qed.

Lemma linspace_length (start stop : R) (num : nat) :
  length (linspace start stop num) = num.
Proof. unfold linspace. rewrite length_map, length_seq. reflexivity. Qed.

Lemma concat_repeat_length {A} (xs : list A) (k : nat) :
  length (concat (repeat xs k)) = (k * length xs)%nat.
Proof.
  induction k as [|k IH]; simpl; [reflexivity|].
  rewrite length_app, IH. reflexivity.
Qed.

Section Results.

Variable inf : R -> R -> R -> R -> R.
Variable tpm : R -> R -> R -> R -> R.
Variable minimize : nat -> R -> list bool -> list Item -> R.

(** X4.  A run with at least one examinee and one cap returns only when
    the test is no longer than the bank: with more administrations than
    items the selector runs out of items and the run raises (or the
    substitution loop never ends). *)
Theorem test_no_longer_than_bank (bank : list (R * R * R))
    (clusters : ClusterMap) (examinees n_itens r_max_interval optimizer : nat)
    (verbose : bool) (reals : list R) (ints : list nat) (w : World)
    (res : list GlobalResult * list LocalResult) :
  simCAT inf tpm minimize bank clusters examinees n_itens r_max_interval
    optimizer verbose reals ints = Ok (w, res) ->
  (0 < examinees)%nat -> (0 < r_max_interval)%nat ->
  (n_itens <= length bank)%nat.
Proof.
  unfold simCAT, simCAT_caps, init_world. intros H He Hn.
  apply bind_ok in H. destruct H as [[tts w0] [H0 H]].
  apply bind_ok in H0. destruct H0 as [[xs tape'] [Hd H0]].
  injection H0 as <- <-.
  apply draw_length in Hd.
  apply run_passes_shape in H. destruct H as [_ [_ [_ [_ Hfit]]]].
  simpl in Hfit. rewrite length_map in Hfit. apply Hfit.
  - intros E. apply (f_equal (@length R)) in E.
    rewrite linspace_length in E. simpl in E. lia.
  - intros E. subst xs. simpl in Hd. lia.
Qed.

(** X5.  A pass that returns appends one Aggregate Record and one
    Simulation Record per examinee.  The Aggregate Record holds the test
    length, the cap, the [rmse] of the Theta and Est. Theta fields of the
    Simulation Records of this pass, and the [overlap_rate] of the
    counters as the pass leaves them; the Simulation Records hold the true
    abilities in order and the cap. *)
Theorem pass_appends_records (true_thetas : list R) (n_itens : nat)
    (clusters : ClusterMap) (optimizer : nat) (verbose : bool) (r_max : R)
    (w w' : World) (res res' : list GlobalResult * list LocalResult) :
  run_pass inf tpm minimize true_thetas n_itens clusters optimizer verbose
    r_max (w, res) = Ok (w', res') ->
  exists G new,
    fst res' = fst res ++ [G]
    /\ snd res' = snd res ++ new
    /\ Qtd_Itens G = n_itens
    /\ g_r_max G = r_max
    /\ rmse (map Theta new) (map Est_Theta new) = Ok (RMSE G)
    /\ overlap_rate (items w') n_itens = Ok (Overlap G)
    /\ map Theta new = true_thetas
    /\ Forall (fun r => l_r_max r = r_max) new.
Proof.
  intros H.
  destruct (run_pass_shape _ _ _ _ _ _ _ _ _ _ _ _ _ H)
    as [[G [new [Hg [Hl [HQ [Hr [He [Ho [Hth Hall]]]]]]]]] _].
  exists G, new. repeat split; auto.
  apply Forall_impl with (2 := Hall). intros r [Hx _]. exact Hx.
Qed.

(** X6.  A run that returns gives one Aggregate Record per cap, in the
    order of the caps and each with the test length, and one Simulation
    Record per cap and examinee, cap by cap, each pass with the same true
    abilities in the same order. *)
Theorem result_lists_shape (bank : list (R * R * R)) (clusters : ClusterMap)
    (examinees n_itens r_max_interval optimizer : nat) (verbose : bool)
    (reals : list R) (ints : list nat) (w : World)
    (g : list GlobalResult) (l : list LocalResult) :
  simCAT inf tpm minimize bank clusters examinees n_itens r_max_interval
    optimizer verbose reals ints = Ok (w, (g, l)) ->
  length g = r_max_interval
  /\ map g_r_max g = linspace (1 / 10) 1 r_max_interval
  /\ Forall (fun G => Qtd_Itens G = n_itens) g
  /\ length l = (r_max_interval * examinees)%nat
  /\ map l_r_max l
     = flat_map (fun r => repeat r examinees)
         (linspace (1 / 10) 1 r_max_interval)
  /\ map Theta l = concat (repeat (firstn examinees reals) r_max_interval).
Proof.
  unfold simCAT, simCAT_caps, init_world. intros H.
  apply bind_ok in H. destruct H as [[tts w0] [H0 H]].
  apply bind_ok in H0. destruct H0 as [[xs tape'] [Hd H0]].
  injection H0 as <- <-.
  apply draw_firstn in Hd. destruct Hd as [Hx Hlen].
  apply run_passes_shape in H.
  destruct H as [[gs [ls [Hg [Hl [Hrm [HQ [Hth [Hlr _]]]]]]]] _].
  simpl in Hg, Hl. subst g l.
  rewrite linspace_length, Hlen in *.
  repeat split; auto.
  - rewrite <- (length_map g_r_max), Hrm. apply linspace_length.
  - rewrite <- (length_map Theta), Hth, concat_repeat_length, Hlen.
    reflexivity.
  - rewrite Hth, Hx. reflexivity.
Qed.

End Results.

Section SharedLists.

Variable inf : R -> R -> R -> R -> R.
Variable tpm : R -> R -> R -> R -> R.
Variable minimize : nat -> R -> list bool -> list Item -> R.

(** X7.  In a run that returns, the Simulation Records of the pass
    numbered [v] all refer to the list object numbered [v], and that list
    has [examinees * n_itens] entries: the items of all the examinees of
    that pass. *)
Theorem records_of_a_pass_share_list (bank : list (R * R * R))
    (clusters : ClusterMap) (examinees n_itens r_max_interval optimizer : nat)
    (verbose : bool) (reals : list R) (ints : list nat) (w : World)
    (g : list GlobalResult) (l : list LocalResult) :
  simCAT inf tpm minimize bank clusters examinees n_itens r_max_interval
    optimizer verbose reals ints = Ok (w, (g, l)) ->
  map Id_Itens l
  = flat_map (fun v => repeat v examinees) (seq 0 r_max_interval)
  /\ forall v, (v < r_max_interval)%nat ->
       length (deref (heap w) v) = (examinees * n_itens)%nat.
Proof.
  unfold simCAT, simCAT_caps, init_world. intros H.
  apply bind_ok in H. destruct H as [[tts w0] [H0 H]].
  apply bind_ok in H0. destruct H0 as [[xs tape'] [Hd H0]].
  injection H0 as <- <-.
  apply draw_length in Hd.
  apply run_passes_shape in H.
  destruct H as [[gs [ls [_ [Hl [_ [_ [_ [_ Hids]]]]]]]] [Hlen _]].
  simpl in Hl, Hids, Hlen. subst l.
  rewrite linspace_length, Hd in *.
  split; [exact Hids|].
  intros v Hv. apply Hlen. lia.
Qed.

(** X8.  In a run that returns, the exposure counters add up to the
    number of administrations of the whole run,
    [r_max_interval * examinees * n_itens]. *)
Theorem counters_sum_to_administrations (bank : list (R * R * R))
    (clusters : ClusterMap) (examinees n_itens r_max_interval optimizer : nat)
    (verbose : bool) (reals : list R) (ints : list nat) (w : World)
    (res : list GlobalResult * list LocalResult) :
  simCAT inf tpm minimize bank clusters examinees n_itens r_max_interval
    optimizer verbose reals ints = Ok (w, res) ->
  np_sum (map exposure (items w))
  = INR (r_max_interval * (examinees * n_itens)).
Proof.
  unfold simCAT, simCAT_caps, init_world. intros H.
  apply bind_ok in H. destruct H as [[tts w0] [H0 H]].
  apply bind_ok in H0. destruct H0 as [[xs tape'] [Hd H0]].
  injection H0 as <- <-.
  apply draw_length in Hd.
  apply run_passes_shape in H.
  destruct H as [_ [_ [_ [Hs _]]]].
  simpl in Hs. rewrite linspace_length, Hd in Hs. rewrite Hs.
  assert (Hz : forall b : list (R * R * R),
            np_sum (map exposure
                      (map (fun p => mkItem (fst (fst p)) (snd (fst p)) (snd p) 0) b))
            = 0).
  { induction b as [|p b IH]; simpl; [reflexivity|]. rewrite IH. ring. }
  rewrite Hz. ring.
Qed.

End SharedLists.

(** The run of one cap and two examinees, one item each, in which the
    first examinee is given item 0 and the second item 1. *)
Lemma two_examinee_run :
  exists w g l,
    simCAT inf_3pl tpm_3pl minimize_seed bank2 one_cluster 2 1 1 0 false
      [0; 0; 0; 0; 0; 0] [0%nat; 1%nat] = Ok (w, (g, l)).
Proof.
  do 3 eexists. unfold simCAT, simCAT_caps, bank2, one_cluster.
  simpl. rewrite one_item_test_draw0. simpl.
  rewrite one_item_test_draw1. simpl. reflexivity.
Qed.

(** One pass with one examinee and one item. *)
Lemma one_pass_run :
  exists w' res',
    run_pass inf_3pl tpm_3pl minimize_seed [0] 1 one_cluster 0 false 1
      (mkWorld (items2 0 0) [0; 0] [0%nat] [], ([], [])) = Ok (w', res').
Proof.
  do 2 eexists. unfold run_pass, items2, one_cluster.
  simpl. rewrite one_item_test_draw0. simpl. reflexivity.
Qed.

Lemma test_no_longer_than_bank_witness :
  exists w g l,
    simCAT inf_3pl tpm_3pl minimize_seed bank2 one_cluster 2 1 1 0 false
      [0; 0; 0; 0; 0; 0] [0%nat; 1%nat] = Ok (w, (g, l))
    /\ (1 <= length bank2)%nat.
Proof.
  destruct two_examinee_run as [w [g [l E]]].
  exists w, g, l. split; [exact E|].
  apply (test_no_longer_than_bank _ _ _ _ _ _ _ _ _ _ _ _ _ _ E); lia.
Defined.

Lemma pass_appends_records_witness :
  exists w' res' G new,
    run_pass inf_3pl tpm_3pl minimize_seed [0] 1 one_cluster 0 false 1
      (mkWorld (items2 0 0) [0; 0] [0%nat] [], ([], [])) = Ok (w', res')
    /\ fst res' = [G] /\ snd res' = new /\ map Theta new = [0].
Proof.
  destruct one_pass_run as [w' [res' E]].
  destruct (pass_appends_records _ _ _ _ _ _ _ _ _ _ _ _ _ E)
    as [G [new [Hg [Hl [_ [_ [_ [_ [Hth _]]]]]]]]].
  exists w', res', G, new. repeat split; assumption.
Defined.

Lemma result_lists_shape_witness :
  exists w g l,
    simCAT inf_3pl tpm_3pl minimize_seed bank2 one_cluster 2 1 1 0 false
      [0; 0; 0; 0; 0; 0] [0%nat; 1%nat] = Ok (w, (g, l))
    /\ length g = 1%nat /\ length l = 2%nat.
Proof.
  destruct two_examinee_run as [w [g [l E]]].
  destruct (result_lists_shape _ _ _ _ _ _ _ _ _ _ _ _ _ _ _ E)
    as [Hg [_ [_ [Hl _]]]].
  exists w, g, l. repeat split; assumption.
Defined.

Lemma records_of_a_pass_share_list_witness :
  exists w g l,
    simCAT inf_3pl tpm_3pl minimize_seed bank2 one_cluster 2 1 1 0 false
      [0; 0; 0; 0; 0; 0] [0%nat; 1%nat] = Ok (w, (g, l))
    /\ map Id_Itens l = [0%nat; 0%nat]
    /\ length (deref (heap w) 0) = 2%nat.
Proof.
  destruct two_examinee_run as [w [g [l E]]].
  destruct (records_of_a_pass_share_list _ _ _ _ _ _ _ _ _ _ _ _ _ _ _ E)
    as [Hid Hlen].
  exists w, g, l. split; [exact E|]. split; [exact Hid|].
  apply (Hlen 0%nat). lia.
Defined.

Lemma counters_sum_to_administrations_witness :
  exists w res,
    simCAT inf_3pl tpm_3pl minimize_seed bank2 one_cluster 1 1 2 0 false
      [0; 0; 0; 0; 0] [0%nat; 0%nat] = Ok (w, res)
    /\ np_sum (map exposure (items w)) = INR (2 * (1 * 1)).
Proof.
  destruct two_cap_run as [w [res [E _]]].
  exists w, res. split; [exact E|].
  apply (counters_sum_to_administrations _ _ _ _ _ _ _ _ _ _ _ _ _ _ E).
Defined.

(** ** [dodd], [rmse] and [overlap_rate] on their own *)

(** X9.  On a bank with greatest difficulty [b_max] and smallest [b_min],
    [dodd] keeps an estimate that lies between the two between them, and
    it moves every estimate towards the bound: after a correct response an
    estimate above [b_max] goes down, after an incorrect one an estimate
    below [b_min] goes up. *)
Theorem dodd_moves_towards_bound (theta : R) (items : list Item)
    (acertou : bool) (b_max b_min : R) :
  is_max_of b_max (map par_b items) ->
  is_min_of b_min (map par_b items) ->
  exists v,
    dodd theta items acertou = Ok v
    /\ (b_min <= theta <= b_max -> b_min <= v <= b_max)
    /\ (acertou = true -> b_max < theta -> b_max < v < theta)
    /\ (acertou = false -> theta < b_min -> theta < v < b_min).
Proof.
  intros Hmax Hmin. unfold dodd.
  rewrite (py_max_spec _ _ Hmax), (py_min_spec _ _ Hmin).
  assert (Hle : b_min <= b_max).
  { destruct Hmax as [Hin _]. destruct Hmin as [_ Hle]. apply Hle. exact Hin. }
  eexists. split; [reflexivity|].
  destruct acertou; repeat split; intros; try discriminate; lra.
Qed.

Lemma dodd_moves_towards_bound_witness :
  exists v, dodd 5 two_items true = Ok v /\ 3 < v < 5.
Proof.
  assert (Hmax : is_max_of 3 (map par_b two_items)).
  { split; simpl; [left; reflexivity|]. intros x [<-|[<-|[]]]; lra. }
  assert (Hmin : is_min_of (-2) (map par_b two_items)).
  { split; simpl; [right; left; reflexivity|]. intros x [<-|[<-|[]]]; lra. }
  destruct (dodd_moves_towards_bound 5 two_items true 3 (-2) Hmax Hmin)
    as [v [E [_ [H _]]]].
  exists v. split; [exact E|]. apply H; [reflexivity | lra].
Defined.

(** X10.  [dodd] raises [ValueError] on an empty bank, where [max] has no
    argument, and returns a value on every other bank. *)
Theorem dodd_raises_on_empty_bank (theta : R) (items : list Item)
    (acertou : bool) :
  (items = [] -> dodd theta items acertou = Raise ValueError)
  /\ (items <> [] -> exists v, dodd theta items acertou = Ok v).
Proof.
  split.
  - intros ->. reflexivity.
  - intros H. destruct items as [|i its]; [congruence|].
    unfold dodd. simpl. eexists. reflexivity.
Qed.

Lemma dodd_raises_on_empty_bank_witness :
  dodd 0 [] true = Raise ValueError /\ exists v, dodd 0 two_items true = Ok v.
Proof.
  split.
  - apply (proj1 (dodd_raises_on_empty_bank 0 [] true)). reflexivity.
  - apply (proj2 (dodd_raises_on_empty_bank 0 two_items true)). discriminate.
Defined.

Lemma sum_squares_nonneg {A} (g : A -> R) (l : list A) :
  0 <= np_sum (map (fun v => g v * g v) l).
Proof.
  induction l as [|x l IH]; simpl; [lra|].
  pose proof (Rle_0_sqr (g x)) as H. unfold Rsqr in H. lra.
Qed.

Lemma sum_squares_zero {A} (g : A -> R) (l : list A) :
  np_sum (map (fun v => g v * g v) l) = 0 <-> forall v, In v l -> g v = 0.
Proof.
  induction l as [|x l IH]; simpl.
  - split; [intros _ v [] | reflexivity].
  - pose proof (Rle_0_sqr (g x)) as Hx. unfold Rsqr in Hx.
    pose proof (sum_squares_nonneg g l) as Hl.
    split.
    + intros H v [<- | Hv].
      * assert (Hz : g x * g x = 0) by lra.
        apply Rmult_integral in Hz. tauto.
      * apply IH; [lra | exact Hv].
    + intros H. rewrite (H x) by auto.
      assert (Hr : np_sum (map (fun v => g v * g v) l) = 0)
        by (apply IH; auto).
      rewrite Hr. ring.
Qed.

Lemma combine_pairs_equal (a p : list R) :
  length a = length p ->
  ((forall v, In v (combine a p) -> fst v - snd v = 0) <-> a = p).
Proof.
  revert p. induction a as [|x a IH]; intros [|y p] Hlen; try discriminate.
  - split; [reflexivity | intros _ v []].
  - simpl in Hlen. injection Hlen as Hlen. split.
    + intros H. f_equal.
      * pose proof (H (x, y) (or_introl eq_refl)) as E. simpl in E. lra.
      * apply IH; [exact Hlen|]. intros v Hv. apply H. right. exact Hv.
    + intros E. injection E as -> ->. intros v [<-|Hv].
      * simpl. ring.
      * apply (proj2 (IH p Hlen) eq_refl). exact Hv.
Qed.

(** X11.  On two sequences of one length [N >= 1], [rmse] returns a value
    that is never negative and that is 0 exactly when the two sequences
    are equal. *)
Theorem rmse_zero_iff_equal (actual predicted : list R) :
  length actual = length predicted -> actual <> [] ->
  exists v,
    rmse actual predicted = Ok v
    /\ 0 <= v
    /\ (v = 0 <-> actual = predicted).
Proof.
  intros Hlen Hne. unfold rmse, mean_squared_error.
  pose proof Hlen as Hb. apply Nat.eqb_eq in Hb. rewrite Hb. simpl negb.
  pose proof (INR_length_pos actual Hne) as HN.
  destruct actual as [|x actual]; [congruence|]. cbv iota.
  eexists. split; [reflexivity|]. split; [apply sqrt_pos|].
  set (S := np_sum (map (fun p => (fst p - snd p) * (fst p - snd p))
                      (combine (x :: actual) predicted))).
  assert (HS : 0 <= S) by apply (sum_squares_nonneg (fun p => fst p - snd p)).
  assert (Hdiv : 0 <= S / INR (length (x :: actual))).
  { apply Rmult_le_pos; [exact HS|]. left. apply Rinv_0_lt_compat. exact HN. }
  rewrite <- (combine_pairs_equal _ _ Hlen).
  rewrite <- (sum_squares_zero (fun p => fst p - snd p)). fold S.
  split.
  - intros H. apply sqrt_eq_0 in H; [|exact Hdiv].
    apply Rmult_integral in H. destruct H as [H|H]; [exact H|].
    exfalso. apply (Rinv_neq_0_compat (INR (length (x :: actual)))); [lra | exact H].
  - intros H. rewrite H. unfold Rdiv. rewrite Rmult_0_l. apply sqrt_0.
Qed.

Lemma rmse_zero_iff_equal_witness :
  exists v, rmse [1; 2] [1; 2] = Ok v /\ v = 0.
Proof.
  assert (Hlen : length [1; 2] = length [1; 2]) by reflexivity.
  assert (Hne : [1; 2] <> []) by discriminate.
  destruct (rmse_zero_iff_equal [1; 2] [1; 2] Hlen Hne) as [v [E [_ H]]].
  exists v. split; [exact E|]. apply H. reflexivity.
Defined.

Lemma sum_squares_swap (a p : list R) :
  np_sum (map (fun v => (fst v - snd v) * (fst v - snd v)) (combine a p))
  = np_sum (map (fun v => (fst v - snd v) * (fst v - snd v)) (combine p a)).
Proof.
  revert p. induction a as [|x a IH]; intros [|y p]; simpl; try reflexivity.
  rewrite IH. ring.
Qed.

(** X12.  [rmse] does not depend on the order of its two arguments,
    neither in its value nor in whether it raises. *)
Theorem rmse_symmetric (actual predicted : list R) :
  rmse actual predicted = rmse predicted actual.
Proof.
  unfold rmse, mean_squared_error.
  rewrite (Nat.eqb_sym (length predicted) (length actual)).
  destruct (length actual =? length predicted)%nat eqn:E; simpl.
  - apply Nat.eqb_eq in E.
    destruct actual as [|x a]; destruct predicted as [|y p];
      try discriminate; try reflexivity.
    rewrite sum_squares_swap, E. reflexivity.
  - reflexivity.
Qed.

(** X13.  [overlap_rate] raises [ZeroDivisionError] exactly when the test
    length is 0 or the bank is empty. *)
Theorem overlap_rate_raises_iff (items : list Item) (testSize : nat) :
  (testSize = 0%nat \/ items = [] ->
   overlap_rate items testSize = Raise ZeroDivisionError)
  /\ (overlap_rate items testSize = Raise ZeroDivisionError ->
      testSize = 0%nat \/ items = [])
  /\ (forall e, overlap_rate items testSize = Raise e ->
      e = ZeroDivisionError).
Proof.
  unfold overlap_rate.
  destruct testSize as [|q]; simpl.
  - repeat split; auto. intros e H. congruence.
  - destruct items as [|i its]; simpl.
    + repeat split; auto. intros e H. congruence.
    + repeat split.
      * intros [H|H]; discriminate.
      * discriminate.
      * discriminate.
Qed.

Lemma np_sum_permutation (x y : list R) :
  Permutation x y -> np_sum x = np_sum y.
Proof.
  induction 1; simpl; try lra.
Qed.

(** X14.  [overlap_rate] depends on the exposure counts only as a
    collection: two matrices whose exposure columns are permutations of
    one another give the same result. *)
Theorem overlap_rate_permutation (items items' : list Item) (testSize : nat) :
  Permutation (map exposure items) (map exposure items') ->
  overlap_rate items testSize = overlap_rate items' testSize.
Proof.
  intros H. unfold overlap_rate.
  pose proof (Permutation_length H) as Hl. rewrite !length_map in Hl.
  assert (Hm : np_mean (map exposure items) = np_mean (map exposure items')).
  { unfold np_mean. rewrite (np_sum_permutation _ _ H), !length_map, Hl.
    reflexivity. }
  assert (Hv : np_var (map exposure items) = np_var (map exposure items')).
  { unfold np_var. rewrite Hm, !length_map, Hl. f_equal.
    apply np_sum_permutation. apply Permutation_map. exact H. }
  rewrite Hv, Hl. reflexivity.
Qed.

Lemma overlap_rate_permutation_witness :
  overlap_rate (items2 1 0) 1 = overlap_rate (items2 0 1) 1.
Proof.
  apply overlap_rate_permutation. simpl. apply perm_swap.
Defined.

(** ** The selector, further *)

(** X15.  The substitution loop returns the first draw that is an item of
    the wanted cluster not yet given to the examinee; the draws before it
    are used up and the draws after it are left on the tape. *)
Theorem substitution_takes_first_valid_draw (cl : nat)
    (clusters adm : list nat) (bank_size : nat) (pre : list nat) (n : nat)
    (rest : list nat) :
  bank_size <> 0%nat -> (bank_size <= length clusters)%nat ->
  (forall m, In m pre ->
     nth_error clusters (m mod bank_size) <> Some cl
     \/ In (m mod bank_size) adm) ->
  nth_error clusters (n mod bank_size) = Some cl ->
  ~ In (n mod bank_size) adm ->
  substitute cl clusters adm bank_size (pre ++ n :: rest)
  = Ok ((n mod bank_size)%nat, rest).
Proof.
  intros Hb Hlen Hpre Hc Hn.
  assert (Hb' : (bank_size =? 0)%nat = false) by (apply Nat.eqb_neq; exact Hb).
  induction pre as [|m pre IH]; simpl; rewrite Hb'.
  - rewrite Hc, Nat.eqb_refl. simpl.
    apply mem_false_iff in Hn. rewrite Hn. reflexivity.
  - destruct (nth_error clusters (m mod bank_size)) as [c|] eqn:Ec.
    + assert (E : (cl =? c)%nat && negb (mem (m mod bank_size) adm) = false).
      { destruct (Hpre m (or_introl eq_refl)) as [H|H].
        - assert (Hne : cl <> c) by congruence.
          apply Nat.eqb_neq in Hne. rewrite Hne. reflexivity.
        - destruct (mem (m mod bank_size) adm) eqn:Em.
          + apply andb_false_r.
          + apply mem_false_iff in Em. contradiction. }
      rewrite E. apply IH. intros k Hk. apply Hpre. right. exact Hk.
    + exfalso. apply nth_error_None in Ec.
      pose proof (Nat.mod_upper_bound m bank_size Hb). lia.
Qed.

Lemma substitution_takes_first_valid_draw_witness :
  substitute 0 [0%nat; 1%nat; 0%nat] [0%nat] 3 [0%nat; 1%nat; 5%nat; 7%nat]
  = Ok (2%nat, [7%nat]).
Proof.
  apply (substitution_takes_first_valid_draw 0 [0%nat; 1%nat; 0%nat]
           [0%nat] 3 [0%nat; 1%nat] 5 [7%nat]).
  - discriminate.
  - simpl. lia.
  - intros m [<-|[<-|[]]]; simpl.
    + right. left. reflexivity.
    + left. discriminate.
  - reflexivity.
  - simpl. intros [H|[]]. discriminate.
Defined.

Section SelectorOutput.

Variable inf : R -> R -> R -> R -> R.

(** X16.  The item the selector returns was not given to the examinee
    and is a row of the bank.  When the scan picked an item, it is that
    pick, with no draw taken, or an item that [clusters] puts in the
    cluster of the pick.  When the scan picked none, an item is returned
    only if [clusters] is an array of one entry, and it is item 0. *)
Theorem selected_item_is_pick_or_cluster_mate (its : list Item)
    (clusters : ClusterMap) (est : R) (adm : list nat) (r_max : R)
    (tape : list nat) (r : nat) (tape' : list nat) :
  select_item inf its clusters est adm r_max tape = Ok (Some r, tape') ->
  ~ In r adm
  /\ (r < length its)%nat
  /\ ((exists s,
         informative_pick inf est adm its = Some s
         /\ ((r = s /\ tape' = tape)
             \/ exists cl, nth_error clusters s = Some cl
                           /\ nth_error clusters r = Some cl))
      \/ (informative_pick inf est adm its = None
          /\ is_ndarray clusters = true
          /\ length clusters = 1%nat
          /\ r = 0%nat)).
Proof.
  intros H.
  destruct (select_item_fresh inf _ _ _ _ _ _ _ _ H) as [Hlt Hnot].
  split; [exact Hnot|]. split; [exact Hlt|].
  unfold select_item in H.
  destruct (length its) as [|counter] eqn:El; [discriminate|].
  destruct (exposure_check its counter (S counter) r_max).
  - destruct (informative_pick inf est adm its) as [s|].
    + destruct (nth_error clusters s) as [cl|] eqn:Ec; [|discriminate].
      apply bind_ok in H. destruct H as [[x t'] [Hs Hr]].
      injection Hr as <- <-.
      apply substitute_ok in Hs. destruct Hs as [_ [Hc _]].
      left. exists s. split; [reflexivity|]. right. exists cl.
      split; [exact Ec | exact Hc].
    + destruct (is_ndarray clusters); [|discriminate].
      apply bind_ok in H. destruct H as [[x t'] [Hs Hr]].
      injection Hr as <- <-.
      apply substitute_none_ok in Hs. destruct Hs as [Hr [_ [_ Hl]]].
      right. repeat split; auto.
  - injection H as Hp <-. left. exists r. split; [exact Hp|]. left.
    split; reflexivity.
Qed.

Lemma scan_keeps_selection (est : R) (adm : list nat) (rows : list Item)
    (counter x : nat) :
  scan inf est adm rows counter (Some x) <> None.
Proof.
  revert counter x. induction rows as [|i rest IH]; intros counter x.
  - discriminate.
  - simpl. destruct (negb (mem counter adm) && _); apply IH.
Qed.

Lemma scan_none_inv (est : R) (adm : list nat) (rows : list Item)
    (counter : nat) (sel : option nat) :
  scan inf est adm rows counter sel = None ->
  forall j it, nth_error rows j = Some it ->
    eligible inf est adm (counter + j) it = false.
Proof.
  revert counter sel. induction rows as [|i rest IH]; intros counter sel H j it Hj.
  - destruct j; discriminate.
  - simpl in H. fold (eligible inf est adm counter i) in H.
    destruct (eligible inf est adm counter i) eqn:E.
    + exfalso. apply (scan_keeps_selection _ _ _ _ _ H).
    + destruct j as [|j].
      * injection Hj as <-. rewrite Nat.add_0_r. exact E.
      * rewrite Nat.add_succ_r. apply (IH _ _ H j it Hj).
Qed.

(** X17.  The scan leaves [selected_item] at [None] exactly when every
    row of the bank was given to the examinee or has an information that
    is not greater than 0. *)
Theorem pick_is_none_iff (est : R) (adm : list nat) (its : list Item) :
  informative_pick inf est adm its = None
  <-> forall k it, nth_error its k = Some it ->
        In k adm \/ ~ inf est (par_a it) (par_b it) (par_c it) > 0.
Proof.
  split.
  - intros H k it Hk.
    pose proof (scan_none_inv _ _ _ _ _ H k it Hk) as E. simpl in E.
    unfold eligible in E. apply andb_false_iff in E. destruct E as [E|E].
    + left. apply negb_false_iff in E.
      destruct (in_dec Nat.eq_dec k adm) as [Hin|Hnot]; [exact Hin|].
      apply mem_false_iff in Hnot. congruence.
    + right. apply Rgtb_false in E. exact E.
  - intros H. apply informative_pick_none. intros k it Hk Hnot.
    destruct (H k it Hk) as [Hin|Hi]; [contradiction | exact Hi].
Qed.

(** X18.  Whenever the scan has picked an item and line 62 sends it to
    the substitution loop, the pick itself passes the test of the loop: if
    [clusters] covers the bank, the loop ends at the latest when the
    generator draws the pick, and the selector returns an item. *)
Theorem substitution_ends_on_pick (its : list Item) (clusters : ClusterMap)
    (est : R) (adm : list nat) (r_max : R) (tape : list nat) (s n : nat) :
  informative_pick inf est adm its = Some s ->
  exposure_check its (length its - 1) (length its) r_max = true ->
  (length its <= length clusters)%nat ->
  In n tape -> (n mod length its)%nat = s ->
  exists r tape',
    select_item inf its clusters est adm r_max tape = Ok (Some r, tape').
Proof.
  intros Hp Hc Hlen Hin Hn.
  destruct (informative_pick_last inf _ _ _ _ Hp) as [it [Hs [Hnot _]]].
  assert (Hlt : (s < length its)%nat) by (apply nth_error_Some; congruence).
  unfold select_item. rewrite Hp.
  destruct (length its) as [|counter] eqn:El; [lia|].
  replace (S counter - 1)%nat with counter in Hc by lia. rewrite Hc.
  destruct (nth_error clusters s) as [cl|] eqn:Ec.
  - destruct (substitute_finds cl clusters adm (S counter) tape)
      as [r [tape' E]]; [lia | lia | |].
    + exists n. rewrite Hn. repeat split; assumption.
    + rewrite E. simpl. eauto.
  - apply nth_error_None in Ec. lia.
Qed.

End SelectorOutput.

(** X19.  For a cap in (0, 1] and a counter that is not negative, the
    condition of line 62 is false, and the pick is kept without
    substitution, only if the counter it reads is greater than the bank
    size. *)
Theorem pick_kept_only_above_bank_size (its : list Item)
    (counter bank_size : nat) (r_max : R) :
  0 < r_max <= 1 -> 0 <= exposure (row its counter) ->
  exposure_check its counter bank_size r_max = false ->
  INR bank_size < r_max * exposure (row its counter)
  /\ INR bank_size < exposure (row its counter).
Proof.
  intros Hr He H. unfold exposure_check in H.
  set (e := exposure (row its counter)) in *.
  apply orb_false_iff in H. destruct H as [H0 H].
  apply Reqb_false in H0.
  rewrite (proj2 (Reqb_false e 0) H0) in H. simpl in H.
  apply Rgeb_false in H.
  assert (Hpos : 0 < e) by lra.
  assert (HN : 0 <= INR bank_size) by apply pos_INR.
  assert (Hlt : INR bank_size / e < r_max) by lra.
  assert (Hm : INR bank_size < r_max * e).
  { apply (Rmult_lt_compat_r e) in Hlt; [|exact Hpos].
    unfold Rdiv in Hlt. rewrite Rmult_assoc, Rinv_l, Rmult_1_r in Hlt by lra.
    exact Hlt. }
  split; [exact Hm | nra].
Qed.

Lemma pick_kept_only_above_bank_size_witness :
  INR 2 < 1 * exposure (row (items2 3 3) 1)
  /\ INR 2 < exposure (row (items2 3 3) 1).
Proof.
  apply (pick_kept_only_above_bank_size (items2 3 3) 1 2 1).
  - lra.
  - simpl. lra.
  - unfold exposure_check, items2. simpl. decide_cmp. reflexivity.
Defined.

Lemma selected_item_is_pick_or_cluster_mate_witness :
  ~ In 0%nat []
  /\ ((exists s,
         informative_pick inf_3pl 0 [] (items2 0 0) = Some s
         /\ ((0%nat = s /\ @nil nat = [0%nat])
             \/ exists cl, nth_error one_cluster s = Some cl
                           /\ nth_error one_cluster 0 = Some cl))
      \/ (informative_pick inf_3pl 0 [] (items2 0 0) = None
          /\ is_ndarray one_cluster = true
          /\ length one_cluster = 1%nat
          /\ 0%nat = 0%nat)).
Proof.
  assert (E : select_item inf_3pl (items2 0 0) one_cluster 0 [] 1 [0%nat]
              = Ok (Some 0%nat, [])).
  { unfold select_item, informative_pick, exposure_check, items2, one_cluster.
    repeat run_step. reflexivity. }
  destruct (selected_item_is_pick_or_cluster_mate inf_3pl _ _ _ _ _ _ _ _ E)
    as [Hn [_ H]].
  split; assumption.
Defined.

Lemma pick_is_none_iff_witness :
  informative_pick inf_3pl 0 [0%nat; 1%nat] (items2 1 1) = None.
Proof.
  apply (proj2 (pick_is_none_iff inf_3pl 0 [0%nat; 1%nat] (items2 1 1))).
  intros [|[|k]] it Hk.
  - left. simpl. auto.
  - left. simpl. auto.
  - destruct k; discriminate.
Defined.

Lemma substitution_ends_on_pick_witness :
  exists r tape',
    select_item inf_3pl (items2 0 0) one_cluster 0 [] 1 [0%nat; 1%nat]
    = Ok (Some r, tape').
Proof.
  apply (substitution_ends_on_pick inf_3pl (items2 0 0) one_cluster 0 [] 1
           [0%nat; 1%nat] 1 1).
  - unfold informative_pick, items2. repeat run_step. reflexivity.
  - unfold exposure_check, items2. simpl. decide_cmp. reflexivity.
  - simpl. lia.
  - simpl. auto.
  - reflexivity.
Defined.

(** ** The caps *)

Lemma linspace_entries (start stop : R) (num : nat) (r : R) :
  In r (linspace start stop num) ->
  exists k, (k < num)%nat
            /\ r = start + INR k * ((stop - start) / INR (num - 1)).
Proof.
  unfold linspace. intros H. apply in_map_iff in H.
  destruct H as [k [<- Hk]]. apply in_seq in Hk. exists k. split; [lia | reflexivity].
Qed.

(** X20.  The caps of a run: [r_max_interval] values, all between 0.1
    and 1, the first equal to 0.1 and, when there are at least two, the
    last equal to 1. *)
Theorem caps_between_tenth_and_one (r_max_interval : nat) :
  length (linspace (1 / 10) 1 r_max_interval) = r_max_interval
  /\ Forall (fun r => 1 / 10 <= r <= 1) (linspace (1 / 10) 1 r_max_interval)
  /\ ((0 < r_max_interval)%nat ->
      nth 0 (linspace (1 / 10) 1 r_max_interval) 0 = 1 / 10)
  /\ ((2 <= r_max_interval)%nat ->
      nth (r_max_interval - 1) (linspace (1 / 10) 1 r_max_interval) 0 = 1).
Proof.
  split; [apply linspace_length|]. split; [|split].
  - apply Forall_forall. intros r Hr.
    apply linspace_entries in Hr. destruct Hr as [k [Hk ->]].
    destruct (Nat.eq_dec (r_max_interval - 1) 0) as [E|E].
    + assert (k = 0%nat) by lia. subst k. simpl. lra.
    + assert (Hd : 0 < INR (r_max_interval - 1)) by (apply lt_0_INR; lia).
      assert (Hk' : INR k <= INR (r_max_interval - 1)) by (apply le_INR; lia).
      assert (Hk0 : 0 <= INR k) by apply pos_INR.
      assert (Hq : 0 <= INR k / INR (r_max_interval - 1) <= 1).
      { split.
        - apply Rmult_le_pos; [exact Hk0|]. left. apply Rinv_0_lt_compat. exact Hd.
        - apply (Rmult_le_reg_r (INR (r_max_interval - 1))); [exact Hd|].
          unfold Rdiv. rewrite Rmult_assoc, Rinv_l by lra. lra. }
      replace (INR k * ((1 - 1 / 10) / INR (r_max_interval - 1)))
        with (INR k / INR (r_max_interval - 1) * (9 / 10))
        by (field; lra).
      lra.
  - intros H. destruct r_max_interval as [|n]; [lia|].
    unfold linspace. simpl. lra.
  - intros H. unfold linspace.
    rewrite (nth_indep _ 0 (1 / 10 + INR 0 * ((1 - 1 / 10) / INR (r_max_interval - 1))))
      by (rewrite length_map, length_seq; lia).
    rewrite (map_nth (fun k => 1 / 10 + INR k * ((1 - 1 / 10) / INR (r_max_interval - 1)))).
    rewrite seq_nth by lia. simpl Nat.add.
    assert (Hd : 0 < INR (r_max_interval - 1)) by (apply lt_0_INR; lia).
    field. lra.
Qed.

(** ** The substitution loop without a valid draw *)

(** X21.  The substitution loop has no bound of its own: as long as the
    draws are items of another cluster or items already given to the
    examinee, it takes the next draw, so on a tape of such draws, however
    long, it comes to the end of the tape. *)
Theorem substitution_keeps_drawing (cl : nat) (clusters adm : list nat)
    (bank_size : nat) (tape : list nat) :
  bank_size <> 0%nat -> (bank_size <= length clusters)%nat ->
  (forall m, In m tape ->
     nth_error clusters (m mod bank_size) <> Some cl
     \/ In (m mod bank_size) adm) ->
  substitute cl clusters adm bank_size tape = Raise TapeEnd.
Proof.
  intros Hb Hlen.
  assert (Hb' : (bank_size =? 0)%nat = false) by (apply Nat.eqb_neq; exact Hb).
  induction tape as [|m tape IH]; intros Hbad; simpl.
  - reflexivity.
  - rewrite Hb'.
    destruct (nth_error clusters (m mod bank_size)) as [c|] eqn:Ec.
    + assert (E : (cl =? c)%nat && negb (mem (m mod bank_size) adm) = false).
      { destruct (Hbad m (or_introl eq_refl)) as [H|H].
        - assert (Hne : cl <> c) by congruence.
          apply Nat.eqb_neq in Hne. rewrite Hne. reflexivity.
        - destruct (mem (m mod bank_size) adm) eqn:Em.
          + apply andb_false_r.
          + apply mem_false_iff in Em. contradiction. }
      rewrite E. apply IH. intros k Hk. apply Hbad. right. exact Hk.
    + exfalso. apply nth_error_None in Ec.
      pose proof (Nat.mod_upper_bound m bank_size Hb). lia.
Qed.

Lemma substitution_keeps_drawing_witness :
  substitute 0 [0%nat; 1%nat] [0%nat] 2 [0%nat; 1%nat; 2%nat; 3%nat]
  = Raise TapeEnd.
Proof.
  apply substitution_keeps_drawing.
  - discriminate.
  - simpl. lia.
  - intros m [<-|[<-|[<-|[<-|[]]]]]; simpl.
    + right. left. reflexivity.
    + left. discriminate.
    + right. left. reflexivity.
    + left. discriminate.
Defined.

(** ** The choice between [dodd] and [minimize] *)

Lemma all_same_snoc (l : list bool) (x : bool) :
  all_same (l ++ [x]) = true <-> forall y, In y l -> y = x.
Proof.
  unfold all_same. destruct l as [|r0 l]; simpl.
  - destruct x; simpl; split; auto; intros _ y [].
  - rewrite eqb_reflx. simpl. rewrite forallb_app. simpl.
    rewrite andb_true_r, andb_true_iff, forallb_forall.
    split.
    + intros [Hall Hx] y [<-|Hy].
      * apply eqb_prop. exact Hx.
      * apply eqb_prop in Hx. subst x. symmetry. apply eqb_prop.
        apply Hall. exact Hy.
    + intros H. pose proof (H r0 (or_introl eq_refl)) as ->. split.
      * intros y Hy. rewrite (H y (or_intror Hy)). apply eqb_reflx.
      * apply eqb_reflx.
Qed.

Section Dispatch.

Variable inf : R -> R -> R -> R -> R.
Variable tpm : R -> R -> R -> R -> R.
Variable minimize : nat -> R -> list bool -> list Item -> R.

(** X22.  An administration appends one response.  When all earlier
    responses of the test equal the new one (in particular after the first
    item) the new estimate is the value of [dodd] on the old estimate, the
    matrix with the updated counter and the new response; when an earlier
    response differs, it is the value of [minimize] seeded with the old
    estimate, on all responses and the rows of all administered items. *)
Theorem estimate_by_dodd_or_minimize (clusters : ClusterMap) (optimizer : nat)
    (r_max true_theta : R) (id_itens : nat) (w w' : World) (t t' : Test) :
  administer inf tpm minimize clusters optimizer r_max true_theta id_itens
    (w, t) = Ok (w', t') ->
  exists acertou,
    response_vector t' = response_vector t ++ [acertou]
    /\ ((forall y, In y (response_vector t) -> y = acertou) ->
        dodd (est_theta t) (items w') acertou = Ok (est_theta t'))
    /\ ((exists y, In y (response_vector t) /\ y <> acertou) ->
        est_theta t'
        = minimize optimizer (est_theta t) (response_vector t')
            (map (row (items w')) (administered_items t'))).
Proof.
  unfold administer. intros H.
  apply bind_ok in H. destruct H as [[sel tape'] [_ H]].
  destruct sel as [s|]; [|discriminate].
  destruct (reals w) as [|u rs]; [discriminate|].
  apply bind_ok in H. destruct H as [est' [He H]].
  injection H as <- <-. simpl.
  match type of He with
  | context [all_same (_ ++ [?a])] => exists a
  end.
  split; [reflexivity|]. split.
  - intros Hall. apply all_same_snoc in Hall. rewrite Hall in He. exact He.
  - intros [y [Hy Hne]].
    match type of He with
    | context [all_same ?l] => destruct (all_same l) eqn:E
    end.
    + exfalso. apply Hne. apply (proj1 (all_same_snoc _ _) E). exact Hy.
    + injection He as <-. reflexivity.
Qed.

End Dispatch.

Lemma estimate_by_dodd_or_minimize_witness :
  exists w' t' acertou,
    administer inf_3pl tpm_3pl minimize_seed one_cluster 0 1 0 0
      (mkWorld (items2 0 0) [0] [0%nat] [[]], mkTest 0 [] []) = Ok (w', t')
    /\ dodd 0 (items w') acertou = Ok (est_theta t').
Proof.
  assert (E : exists w' t',
             administer inf_3pl tpm_3pl minimize_seed one_cluster 0 1 0 0
               (mkWorld (items2 0 0) [0] [0%nat] [[]], mkTest 0 [] [])
             = Ok (w', t')).
  { do 2 eexists. unfold items2, one_cluster, administer, select_item,
      informative_pick, exposure_check, dodd.
    repeat run_step. reflexivity. }
  destruct E as [w' [t' E]].
  destruct (estimate_by_dodd_or_minimize inf_3pl tpm_3pl minimize_seed
              _ _ _ _ _ _ _ _ _ E) as [a [_ [H _]]].
  exists w', t', a. split; [exact E|]. apply H. intros y [].
Defined.

Lemma overlap_rate_raises_iff_witness :
  overlap_rate two_items 0 = Raise ZeroDivisionError
  /\ overlap_rate [] 5 = Raise ZeroDivisionError.
Proof.
  split.
  - apply (proj1 (overlap_rate_raises_iff two_items 0)). left. reflexivity.
  - apply (proj1 (overlap_rate_raises_iff [] 5)). right. reflexivity.
Defined.

Lemma caps_between_tenth_and_one_witness :
  nth 0 (linspace (1 / 10) 1 10) 0 = 1 / 10
  /\ nth (10 - 1) (linspace (1 / 10) 1 10) 0 = 1.
Proof.
  destruct (caps_between_tenth_and_one 10) as [_ [_ [H0 H1]]].
  split; [apply H0 | apply H1]; lia.
Defined.
